(** * The [suggestions.mention] endpoint of Outline

    A shallow embedding of [server/routes/api/suggestions/suggestions.ts]:
    the scoped multi-entity suggestion search.  The handler decides whether
    directory isolation applies to the actor, builds the Sequelize [where]
    objects of the user and group lookups, fans out to four lookups joined
    by [Promise.all] and assembles the response envelope.

    Layout: text and SQL [LIKE]; the fragment of Sequelize the handler uses
    ([WhereOptions], [findAll]); the models; promises; the handler; then the
    lemmas and the properties of the endpoint. *)

From Stdlib Require Import List String Ascii Bool Arith NArith ZArith Lia.
From Stdlib Require Import Sorted Permutation.
Import ListNotations.
Local Open Scope string_scope.
Local Open Scope list_scope.

Set Implicit Arguments.

(* ===================================================================== *)
(** ** Text *)
(* ===================================================================== *)

(** Names, e-mail addresses, identifiers and queries are Unicode text: a
    sequence of code points, which is what PostgreSQL's [LOWER], [unaccent]
    and [LIKE] work on. *)
Definition codepoint := N.
Definition text := list codepoint.

Definition of_ascii (s : string) : text :=
  map N_of_ascii (list_ascii_of_string s).

Definition text_eqb (a b : text) : bool :=
  if list_eq_dec N.eq_dec a b then true else false.

(** The three characters [LIKE] reads specially. *)
Definition percent : codepoint := 37%N.
Definition underscore : codepoint := 95%N.
Definition backslash : codepoint := 92%N.

Definition is_meta (c : codepoint) : bool :=
  (c =? percent)%N || (c =? underscore)%N || (c =? backslash)%N.

(** [prefixb q s]: [s] starts with [q]. *)
Fixpoint prefixb (q s : text) : bool :=
  match q, s with
  | [], _ => true
  | _ :: _, [] => false
  | c :: q', x :: s' => (c =? x)%N && prefixb q' s'
  end.

(** [substringb q s]: [q] occurs in [s] as a contiguous run. *)
Fixpoint substringb (q s : text) : bool :=
  prefixb q s ||
  match s with
  | [] => false
  | _ :: s' => substringb q s'
  end.

(** PostgreSQL's [s LIKE p] with the default escape character: [%] stands
    for any run of characters, [_] for any one character, a backslash makes
    the next pattern character literal.  A pattern ending in a lone
    backslash is an error in PostgreSQL; it is [false] here, and
    [escaped_query_pattern_ok] below shows the handler never builds one. *)
Fixpoint like (p : text) : text -> bool :=
  match p with
  | [] => fun s => match s with [] => true | _ :: _ => false end
  | c :: p' =>
    if (c =? percent)%N then
      fix any_run (s : text) : bool :=
        like p' s ||
        match s with
        | [] => false
        | _ :: s' => any_run s'
        end
    else if (c =? underscore)%N then
      fun s => match s with [] => false | _ :: s' => like p' s' end
    else if (c =? backslash)%N then
      match p' with
      | [] => fun _ => false
      | e :: p'' =>
        fun s => match s with
                 | [] => false
                 | x :: s' => (e =? x)%N && like p'' s'
                 end
      end
    else
      fun s => match s with
               | [] => false
               | x :: s' => (c =? x)%N && like p' s'
               end
  end.

(** [pattern_ok p]: no backslash of [p] is left without a character to
    escape, so [LIKE] raises no error on [p]. *)
Fixpoint pattern_ok (p : text) : bool :=
  match p with
  | [] => true
  | c :: p' =>
    if (c =? backslash)%N then
      match p' with
      | [] => false
      | _ :: p'' => pattern_ok p''
      end
    else pattern_ok p'
  end.

(** The NUL character, which no text of the database holds. *)
Definition nul : codepoint := 0%N.

(** What the database does to text: [LOWER] and the [unaccent] extension
    work character by character ([unaccent] may replace one character by
    several, or by none), and [ORDER BY] compares by the collation.  Both
    leave the percent sign alone.  NUL is no character of theirs: they
    leave it where it is and never produce it. *)
Class Collation := {
  lower_char : codepoint -> codepoint;
  unaccent_char : codepoint -> text;
  collate_leb : text -> text -> bool;
  lower_percent : lower_char percent = percent;
  unaccent_percent : unaccent_char percent = [percent];
  lower_nul : forall c, lower_char c = nul <-> c = nul;
  unaccent_nul : unaccent_char nul = [nul];
  unaccent_not_nul : forall c, c <> nul -> ~ In nul (unaccent_char c)
}.

Definition sql_lower `{Collation} (t : text) : text := map lower_char t.
Definition sql_unaccent `{Collation} (t : text) : text := flat_map unaccent_char t.

(** [unaccent(LOWER(t))] *)
Definition normalize `{Collation} (t : text) : text := sql_unaccent (sql_lower t).

(** A collation for the examples, on the Latin-1 range: upper-case
    letters are 32 below their lower-case forms, accented letters lose
    their accent, ligatures are spelled out, and the full-width percent
    sign becomes [%], as in PostgreSQL; every other character is left as
    it is, where PostgreSQL's rules go on.  The order is by code point. *)
Definition latin1_lower (c : codepoint) : codepoint :=
  if ((65 <=? c) && (c <=? 90))%N then (c + 32)%N
  else if ((192 <=? c) && (c <=? 222) && negb (c =? 215))%N then (c + 32)%N
  else c.

Definition latin1_unaccent (c : codepoint) : text :=
  let a := of_ascii in
  if ((192 <=? c) && (c <=? 197))%N then a "A"
  else if (c =? 198)%N then a "AE"
  else if (c =? 199)%N then a "C"
  else if ((200 <=? c) && (c <=? 203))%N then a "E"
  else if ((204 <=? c) && (c <=? 207))%N then a "I"
  else if (c =? 208)%N then a "D"
  else if (c =? 209)%N then a "N"
  else if ((210 <=? c) && (c <=? 214) || (c =? 216))%N then a "O"
  else if ((217 <=? c) && (c <=? 220))%N then a "U"
  else if (c =? 221)%N then a "Y"
  else if (c =? 223)%N then a "ss"
  else if ((224 <=? c) && (c <=? 229))%N then a "a"
  else if (c =? 230)%N then a "ae"
  else if (c =? 231)%N then a "c"
  else if ((232 <=? c) && (c <=? 235))%N then a "e"
  else if ((236 <=? c) && (c <=? 239))%N then a "i"
  else if (c =? 240)%N then a "d"
  else if (c =? 241)%N then a "n"
  else if ((242 <=? c) && (c <=? 246) || (c =? 248))%N then a "o"
  else if ((249 <=? c) && (c <=? 252))%N then a "u"
  else if ((c =? 253) || (c =? 255))%N then a "y"
  else if (c =? 65285)%N then a "%"
  else [c].

Fixpoint codepoint_leb (a b : text) : bool :=
  match a, b with
  | [], _ => true
  | _ :: _, [] => false
  | x :: a', y :: b' => (x <? y)%N || ((x =? y)%N && codepoint_leb a' b')
  end.

Lemma latin1_lower_nul (c : codepoint) : latin1_lower c = nul <-> c = nul.
Proof.
  unfold latin1_lower, nul.
  destruct (N.leb_spec 65 c), (N.leb_spec c 90); simpl; try lia;
    destruct (N.leb_spec 192 c), (N.leb_spec c 222); simpl; try lia;
    destruct (c =? 215)%N; simpl; lia.
Qed.

Lemma latin1_unaccent_not_nul (c : codepoint) :
  c <> nul -> ~ In nul (latin1_unaccent c).
Proof.
  unfold latin1_unaccent, nul. intros Hc.
  repeat match goal with
         | |- context [if ?b then _ else _] => destruct b
         end;
    simpl; intuition (try discriminate; congruence).
Qed.

Definition latin1 : Collation := {|
  lower_char := latin1_lower;
  unaccent_char := latin1_unaccent;
  collate_leb := codepoint_leb;
  lower_percent := eq_refl;
  unaccent_percent := eq_refl;
  lower_nul := latin1_lower_nul;
  unaccent_nul := eq_refl;
  unaccent_not_nul := latin1_unaccent_not_nul
|}.

(* ===================================================================== *)
(** ** Sequelize: values, [where] objects and [findAll] *)
(* ===================================================================== *)

(** A column value. *)
Inductive Value :=
| VNull
| VBool (b : bool)
| VText (t : text)
| VDate (z : Z).

Definition value_eqb (a b : Value) : bool :=
  match a, b with
  | VNull, VNull => true
  | VBool x, VBool y => Bool.eqb x y
  | VText x, VText y => text_eqb x y
  | VDate x, VDate y => (x =? y)%Z
  | _, _ => false
  end.

(** A model gives each row its column values. *)
Class Model (R : Type) := { getDataValue : R -> string -> Value }.

(** The SQL the handler passes through [Sequelize.literal]:
    [unaccent(LOWER(col)) like unaccent(LOWER(:query))]. *)
Inductive SqlExpr :=
| Col (name : string)
| Replacement (name : string)
| LOWER (e : SqlExpr)
| unaccent (e : SqlExpr).

Inductive Literal :=
| Like (subject pattern : SqlExpr).

(** What stands at an attribute of a [where] object. *)
Inductive Cond :=
| Is (v : Value)              (* attr: v *)
| OpEq (v : Value)            (* attr: { [Op.eq]: v } *)
| OpIn (vs : list Value).     (* attr: { [Op.in]: vs } *)

(** What stands at [Op.and]. *)
Inductive Clause :=
| Lit (l : Literal)           (* [Op.and]: literal *)
| OpOr (ls : list Literal).   (* [Op.and]: { [Op.or]: [l1; l2] } *)

(** An own property of a [where] object: an attribute or the symbol
    [Op.and]. *)
Inductive WhereItem :=
| Attr (a : string) (c : Cond)
| OpAnd (c : Clause).

Definition WhereOptions := list WhereItem.

(** The property key: [Some a] for attribute [a], [None] for [Op.and]. *)
Definition key (i : WhereItem) : option string :=
  match i with
  | Attr a _ => Some a
  | OpAnd _ => None
  end.

Definition key_eqb (a b : option string) : bool :=
  match a, b with
  | Some x, Some y => String.eqb x y
  | None, None => true
  | _, _ => false
  end.

(** [{ ...w, k: v }]: an existing property [k] keeps its place and takes
    the new value, a new one goes last. *)
Fixpoint assign (i : WhereItem) (w : WhereOptions) : WhereOptions :=
  match w with
  | [] => [i]
  | j :: w' => if key_eqb (key j) (key i) then i :: w' else j :: assign i w'
  end.

(** How Sequelize writes a string into the SQL text for PostgreSQL: a NUL
    becomes a backslash and the digit 0.  (Quotes are doubled, which the
    SQL string literal reads back as single quotes.) *)
Definition escape (t : text) : text :=
  flat_map (fun c => if (c =? nul)%N then [backslash; 48%N] else [c]) t.

Fixpoint lookup_replacement (n : string) (rs : list (string * text)) : option text :=
  match rs with
  | [] => None
  | (k, v) :: rs' => if String.eqb k n then Some v else lookup_replacement n rs'
  end.

Section Select.
Context `{Collation} {R : Type} `{Model R}.

(** An expression evaluates to text or to NULL ([None]). *)
Fixpoint eval_expr (rs : list (string * text)) (r : R) (e : SqlExpr) : option text :=
  match e with
  | Col c => match getDataValue r c with VText t => Some t | _ => None end
  | Replacement n => option_map escape (lookup_replacement n rs)
  | LOWER e' => option_map sql_lower (eval_expr rs r e')
  | unaccent e' => option_map sql_unaccent (eval_expr rs r e')
  end.

(** A row is kept when its condition is TRUE; a comparison with NULL is
    not.  The handler's conditions have no negation, so "is TRUE" goes
    through [OR] and [AND] as [existsb] and [forallb]. *)
Definition eval_literal (rs : list (string * text)) (r : R) (l : Literal) : bool :=
  match l with
  | Like subject pattern =>
    match eval_expr rs r subject, eval_expr rs r pattern with
    | Some s, Some p => like p s
    | _, _ => false
    end
  end.

(** Sequelize writes a comparison with [null] as [IS NULL]; [IN] over a
    NULL column is never TRUE, and [Op.in] of [[]] matches nothing. *)
Definition eval_cond (v : Value) (c : Cond) : bool :=
  match c with
  | Is x => value_eqb v x
  | OpEq x => value_eqb v x
  | OpIn xs => match v with VNull => false | _ => existsb (value_eqb v) xs end
  end.

Definition eval_clause (rs : list (string * text)) (r : R) (c : Clause) : bool :=
  match c with
  | Lit l => eval_literal rs r l
  | OpOr ls => existsb (eval_literal rs r) ls
  end.

Definition eval_item (rs : list (string * text)) (r : R) (i : WhereItem) : bool :=
  match i with
  | Attr a c => eval_cond (getDataValue r a) c
  | OpAnd c => eval_clause rs r c
  end.

(** The properties of a [where] object are joined by [AND]. *)
Definition matches (rs : list (string * text)) (w : WhereOptions) (r : R) : bool :=
  forallb (eval_item rs r) w.

(** [ORDER BY]: NULLs last, text by the collation. *)
Definition value_leb (a b : Value) : bool :=
  match a, b with
  | _, VNull => true
  | VNull, _ => false
  | VText x, VText y => collate_leb x y
  | VDate x, VDate y => (x <=? y)%Z
  | VBool x, VBool y => implb x y
  | _, _ => true
  end.

Inductive Direction := ASC | DESC.

Fixpoint row_leb (order : list (string * Direction)) (a b : R) : bool :=
  match order with
  | [] => true
  | (c, d) :: order' =>
    let x := getDataValue a c in
    let y := getDataValue b c in
    let le := match d with ASC => value_leb x y | DESC => value_leb y x end in
    let ge := match d with ASC => value_leb y x | DESC => value_leb x y end in
    le && (negb ge || row_leb order' a b)
  end.

Fixpoint insert_row (order : list (string * Direction)) (a : R) (l : list R) : list R :=
  match l with
  | [] => [a]
  | b :: l' => if row_leb order a b then a :: l else b :: insert_row order a l'
  end.

Definition sort_rows (order : list (string * Direction)) (l : list R) : list R :=
  fold_right (insert_row order) [] l.

Record FindOptions := {
  where_ : WhereOptions;
  order : list (string * Direction);
  replacements : list (string * text);
  offset : option nat;
  limit : option nat
}.

(** [SELECT ... WHERE where ORDER BY order OFFSET offset LIMIT limit] over
    the rows of a table. *)
Definition select (table : list R) (o : FindOptions) : list R :=
  let kept := sort_rows (order o) (filter (matches (replacements o) (where_ o)) table) in
  let skipped := match offset o with Some n => skipn n kept | None => kept end in
  match limit o with Some n => firstn n skipped | None => skipped end.

End Select.

(* ===================================================================== *)
(** ** Models *)
(* ===================================================================== *)

Inductive UserRole := Admin | Member | Viewer | Guest.

Inductive TeamPreference :=
| RestrictExternalDirectory
| OtherPreference (name : string).

(** What a preference lookup gives back in JavaScript. *)
Inductive JSValue :=
| JSUndefined
| JSBoolean (b : bool).

(** [!!v] *)
Definition truthy (v : JSValue) : bool :=
  match v with
  | JSUndefined => false
  | JSBoolean b => b
  end.

Module Team.

Record t := {
  id : text;
  preferences : list (TeamPreference * bool)
}.

Definition preference_eqb (a b : TeamPreference) : bool :=
  match a, b with
  | RestrictExternalDirectory, RestrictExternalDirectory => true
  | OtherPreference x, OtherPreference y => String.eqb x y
  | _, _ => false
  end.

(** Modelled from the spec: [Team.getPreference] is declared outside this
    file.  A team preference is a boolean-valued policy keyed by a fixed
    identifier; an absent one reads as undefined, which is falsy. *)
Fixpoint getPreference_in (ps : list (TeamPreference * bool)) (p : TeamPreference) : JSValue :=
  match ps with
  | [] => JSUndefined
  | (k, b) :: ps' => if preference_eqb k p then JSBoolean b else getPreference_in ps' p
  end.

Definition getPreference (team : t) (p : TeamPreference) : JSValue :=
  getPreference_in (preferences team) p.

End Team.

Module User.

Record t := {
  id : text;
  teamId : text;
  name : text;
  email : option text;
  suspendedAt : option Z;
  role : UserRole;
  team : option Team.t
}.

(** Modelled from the spec: the getters [isViewer] and [isGuest] are
    declared outside this file.  They read the role classification of the
    user. *)
Definition isViewer (u : t) : bool :=
  match role u with Viewer => true | _ => false end.

Definition isGuest (u : t) : bool :=
  match role u with Guest => true | _ => false end.

#[global] Instance model : Model t := {|
  getDataValue u c :=
    if String.eqb c "id" then VText (id u)
    else if String.eqb c "teamId" then VText (teamId u)
    else if String.eqb c "name" then VText (name u)
    else if String.eqb c "email" then
      match email u with Some e => VText e | None => VNull end
    else if String.eqb c "suspendedAt" then
      match suspendedAt u with Some d => VDate d | None => VNull end
    else VNull
|}.

End User.

Module Group.

Record t := {
  id : text;
  teamId : text;
  name : text;
  disableMentions : bool
}.

#[global] Instance model : Model t := {|
  getDataValue g c :=
    if String.eqb c "id" then VText (id g)
    else if String.eqb c "teamId" then VText (teamId g)
    else if String.eqb c "name" then VText (name g)
    else if String.eqb c "disableMentions" then VBool (disableMentions g)
    else VNull
|}.

End Group.

Module GroupUser.

Record t := {
  groupId : text;
  userId : text
}.

#[global] Instance model : Model t := {|
  getDataValue gu c :=
    if String.eqb c "groupId" then VText (groupId gu)
    else if String.eqb c "userId" then VText (userId gu)
    else VNull
|}.

End GroupUser.

(* ===================================================================== *)
(** ** Promises *)
(* ===================================================================== *)

Definition Error := string.

Inductive Outcome (A : Type) :=
| Fulfilled (a : A)
| Rejected (e : Error).

Arguments Fulfilled {A} a.
Arguments Rejected {A} e.

(** A promise as the handler sees it: how it settles, and when (a tick of
    the event loop), which is what [Promise.all] depends on. *)
Record Promise (A : Type) := {
  settledAt : nat;
  outcome : Outcome A
}.

(** An [async] body: the first rejected [await] ends it. *)
Definition bind {A B} (m : Outcome A) (k : A -> Outcome B) : Outcome B :=
  match m with
  | Fulfilled a => k a
  | Rejected e => Rejected e
  end.

Definition await {A} (p : Promise A) : Outcome A := outcome p.

Notation "x <- m ;; k" := (bind m (fun x => k))
  (at level 61, m at next level, right associativity).
Notation "' pat <- m ;; k" := (bind m (fun x => match x with pat => k end))
  (at level 61, pat pattern, m at next level, right associativity).

(** [Promise.all] of two: fulfilled with both values once both are, and
    rejected with the reason of the promise that rejects first. *)
Definition both {A B} (p : Promise A) (q : Promise B) : Promise (A * B) :=
  match outcome p, outcome q with
  | Fulfilled a, Fulfilled b =>
    {| settledAt := Nat.max (settledAt p) (settledAt q); outcome := Fulfilled (a, b) |}
  | Rejected e, Fulfilled _ => {| settledAt := settledAt p; outcome := Rejected e |}
  | Fulfilled _, Rejected e => {| settledAt := settledAt q; outcome := Rejected e |}
  | Rejected e, Rejected e' =>
    if (settledAt p <=? settledAt q)%nat
    then {| settledAt := settledAt p; outcome := Rejected e |}
    else {| settledAt := settledAt q; outcome := Rejected e' |}
  end.

Definition resolved {A} (a : A) : Promise A :=
  {| settledAt := 0; outcome := Fulfilled a |}.

Definition then_ {A B} (f : A -> B) (p : Promise A) : Promise B :=
  {| settledAt := settledAt p;
     outcome := match outcome p with
                | Fulfilled a => Fulfilled (f a)
                | Rejected e => Rejected e
                end |}.

(** [Promise.all([p1, p2, p3, p4])] *)
Definition Promise_all4 {A B C D} (p1 : Promise A) (p2 : Promise B)
    (p3 : Promise C) (p4 : Promise D) : Promise (A * B * C * D) :=
  both (both (both p1 p2) p3) p4.

(** [Promise.all(ps)] over an array. *)
Fixpoint Promise_all {A} (ps : list (Promise A)) : Promise (list A) :=
  match ps with
  | [] => resolved []
  | p :: ps' => then_ (fun '(a, l) => a :: l) (both p (Promise_all ps'))
  end.

(** How a promise fails: when, and with what reason. *)
Definition rejection {A} (p : Promise A) : option (nat * Error) :=
  match outcome p with
  | Fulfilled _ => None
  | Rejected e => Some (settledAt p, e)
  end.

(** Of two failures, the one that comes first; the left one on a tie. *)
Definition earlier (a b : option (nat * Error)) : option (nat * Error) :=
  match a, b with
  | Some (t, e), Some (t', e') => if (t <=? t')%nat then Some (t, e) else Some (t', e')
  | Some x, None => Some x
  | None, y => y
  end.

(** The earliest of a list of failures, if there is one. *)
Definition earliest (l : list (option (nat * Error))) : option (nat * Error) :=
  fold_left earlier l None.

(* ===================================================================== *)
(** ** The database and the collaborators *)
(* ===================================================================== *)

Inductive Table := Users | Groups | GroupUsers.

(** The tables the handler reads, each as the rows in the order a scan
    of the table yields them, and for the query sent to each table when it
    settles and whether it fails. *)
Record Database := {
  users : list User.t;
  groups : list Group.t;
  groupUsers : list GroupUser.t;
  query_status : Table -> Promise unit
}.

(** [Model.findAll(options)]: the selected rows once the query settles. *)
Definition findAll `{Collation} {R : Type} `{Model R}
    (db : Database) (tb : Table) (rows : list R) (o : FindOptions) : Promise (list R) :=
  then_ (fun _ => select rows o) (query_status db tb).

Definition User_findAll `{Collation} (db : Database) (o : FindOptions) : Promise (list User.t) :=
  findAll db Users (users db) o.

Definition Group_findAll `{Collation} (db : Database) (o : FindOptions) : Promise (list Group.t) :=
  findAll db Groups (groups db) o.

Definition GroupUser_findAll `{Collation} (db : Database) (o : FindOptions) : Promise (list GroupUser.t) :=
  findAll db GroupUsers (groupUsers db) o.

Inductive StatusFilter := Published | Archived | Draft.

Module Pagination.

Record t := {
  offset : nat;
  limit : nat
}.

End Pagination.

Module SearchOptions.

Record t := {
  query : option text;
  offset : nat;
  limit : nat;
  statusFilter : option (list StatusFilter)
}.

End SearchOptions.

(** The entity types this file only passes along. *)
Class Entities := {
  Document : Type;
  Collection : Type;
  PresentedDocument : Type;
  PresentedUser : Type;
  PresentedGroup : Type
}.

(** [ctx.input.body] and [ctx.state] *)
Record APIInput := {
  input_query : option text
}.

Record APIState := {
  state_pagination : Pagination.t;
  state_auth_user : User.t
}.

Section Endpoint.
Context `{Collation} `{Entities}.

Record Data := {
  data_documents : list PresentedDocument;
  data_users : list PresentedUser;
  data_groups : list PresentedGroup;
  data_collections : list Collection
}.

Record Envelope := {
  pagination : Pagination.t;
  data : Data
}.

Record APIContext := {
  input : APIInput;
  state : APIState;
  body : option Envelope
}.

(** The functions the handler imports.  [presentDocument] is given the
    request side of [ctx]. *)
Class Collaborators := {
  groupIds : User.t -> Promise (list text);
  searchTitlesForUser : User.t -> SearchOptions.t -> Promise (list Document);
  searchCollectionsForUser : User.t -> SearchOptions.t -> Promise (list Collection);
  can : User.t -> string -> User.t -> bool;
  presentDocument : APIInput -> APIState -> Document -> Promise PresentedDocument;
  presentUser : User.t -> bool -> bool -> PresentedUser;
  presentGroup : Group.t -> Promise PresentedGroup
}.

Context `{Collaborators}.

(* ===================================================================== *)
(** ** The handler *)
(* ===================================================================== *)

(** [if (query)]: a string is truthy when it is not empty. *)
Definition query_truthy (query : option text) : bool :=
  match query with
  | Some (_ :: _) => true
  | _ => false
  end.

(** [`%${query}%`] *)
Definition query_template (query : option text) : text :=
  match query with
  | Some q => percent :: q ++ [percent]
  | None => percent :: of_ascii "undefined" ++ [percent]
  end.

Definition email_like : Literal :=
  Like (unaccent (LOWER (Col "email"))) (unaccent (LOWER (Replacement "query"))).

Definition name_like : Literal :=
  Like (unaccent (LOWER (Col "name"))) (unaccent (LOWER (Replacement "query"))).

(** [[...new Set(ids)]]: the first occurrence of each id, in order. *)
Definition new_Set (ids : list text) : list text :=
  fold_left (fun seen x => if existsb (text_eqb x) seen then seen else seen ++ [x]) ids [].

(** [team?.getPreference(p)] *)
Definition optional_getPreference (team : option Team.t) (p : TeamPreference) : JSValue :=
  match team with
  | Some t => Team.getPreference t p
  | None => JSUndefined
  end.

(** Lines 29 to 31. *)
Definition restrictDirectory (actor : User.t) : bool :=
  (User.isViewer actor || User.isGuest actor) &&
  truthy (optional_getPreference (User.team actor) RestrictExternalDirectory).

Definition user_text_filter : WhereItem := OpAnd (OpOr [email_like; name_like]).
Definition group_text_filter : WhereItem := OpAnd (Lit name_like).

(** Lines 40 to 61: [userWhere] before the scope is applied. *)
Definition userWhere_unscoped (actor : User.t) (query : option text) : WhereOptions :=
  let userWhere :=
    [ Attr "teamId" (Is (VText (User.teamId actor)));
      Attr "suspendedAt" (OpEq VNull) ] in
  if query_truthy query then assign user_text_filter userWhere else userWhere.

(** Lines 64 to 76: [groupWhere] before the scope is applied. *)
Definition groupWhere_unscoped (actor : User.t) (query : option text) : WhereOptions :=
  let groupWhere :=
    [ Attr "teamId" (Is (VText (User.teamId actor)));
      Attr "disableMentions" (Is (VBool false)) ] in
  if query_truthy query then assign group_text_filter groupWhere else groupWhere.

(** Lines 81 to 88: the options of [GroupUser.findAll].  Its [attributes]
    only narrow the columns that are loaded; the handler reads [userId]. *)
Definition membershipOptions (actorGroupIds : list text) : FindOptions :=
  {| where_ := [ Attr "groupId" (OpIn (map VText actorGroupIds)) ];
     order := []; replacements := []; offset := None; limit := None |}.

(** Lines 24 to 121: the scope decision and the two [where] objects. *)
Definition buildWhere (db : Database) (i : APIInput) (s : APIState)
    : Outcome (WhereOptions * WhereOptions) :=
  let query := input_query i in
  let actor := state_auth_user s in
  let restrictDirectory := restrictDirectory actor in
  actorGroupIds <- (if restrictDirectory then await (groupIds actor) else Fulfilled []) ;;
  let userWhere := userWhere_unscoped actor query in
  let groupWhere := groupWhere_unscoped actor query in
  if restrictDirectory && (0 <? List.length actorGroupIds)%nat then
    groupUsers <- await (GroupUser_findAll db (membershipOptions actorGroupIds)) ;;
    let allowedUserIds :=
      new_Set (map GroupUser.userId groupUsers) ++ [User.id actor] in
    Fulfilled
      (assign (Attr "id" (OpIn (map VText allowedUserIds))) userWhere,
       assign (Attr "id" (OpIn (map VText actorGroupIds))) groupWhere)
  else if restrictDirectory && (List.length actorGroupIds =? 0)%nat then
    Fulfilled
      (assign (Attr "id" (Is (VText (User.id actor)))) userWhere,
       assign (Attr "id" (OpIn [])) groupWhere)
  else Fulfilled (userWhere, groupWhere).

(** Lines 131 to 135 and 138 to 142: the options of [User.findAll] and
    of [Group.findAll], which differ in [where] alone. *)
Definition lookupOptions (i : APIInput) (s : APIState) (w : WhereOptions) : FindOptions :=
  {| where_ := w;
     order := [("name", ASC)];
     replacements := [("query", query_template (input_query i))];
     offset := Some (Pagination.offset (state_pagination s));
     limit := Some (Pagination.limit (state_pagination s)) |}.

(** Lines 124 to 144: the four lookups. *)
Definition documentsLookup (i : APIInput) (s : APIState) : Promise (list Document) :=
  searchTitlesForUser (state_auth_user s)
    {| SearchOptions.query := input_query i;
       SearchOptions.offset := Pagination.offset (state_pagination s);
       SearchOptions.limit := Pagination.limit (state_pagination s);
       SearchOptions.statusFilter := Some [Published] |}.

Definition usersLookup (db : Database) (i : APIInput) (s : APIState)
    (userWhere : WhereOptions) : Promise (list User.t) :=
  User_findAll db (lookupOptions i s userWhere).

Definition groupsLookup (db : Database) (i : APIInput) (s : APIState)
    (groupWhere : WhereOptions) : Promise (list Group.t) :=
  Group_findAll db (lookupOptions i s groupWhere).

Definition collectionsLookup (i : APIInput) (s : APIState) : Promise (list Collection) :=
  searchCollectionsForUser (state_auth_user s)
    {| SearchOptions.query := input_query i;
       SearchOptions.offset := Pagination.offset (state_pagination s);
       SearchOptions.limit := Pagination.limit (state_pagination s);
       SearchOptions.statusFilter := None |}.

(** Lines 123 to 145: the four lookups behind [Promise.all]. *)
Definition fanOut (db : Database) (i : APIInput) (s : APIState)
    (userWhere groupWhere : WhereOptions)
    : Promise (list Document * list User.t * list Group.t * list Collection) :=
  Promise_all4
    (documentsLookup i s)
    (usersLookup db i s userWhere)
    (groupsLookup db i s groupWhere)
    (collectionsLookup i s).

(** Lines 24 to 145: what the four lookups return to the handler. *)
Definition lookups (db : Database) (i : APIInput) (s : APIState)
    : Outcome (list Document * list User.t * list Group.t * list Collection) :=
  '(userWhere, groupWhere) <- buildWhere db i s ;;
  await (fanOut db i s userWhere groupWhere).

(** Lines 147 to 162: the response envelope. *)
Definition respond (i : APIInput) (s : APIState)
    (found : list Document * list User.t * list Group.t * list Collection)
    : Outcome Envelope :=
  let '(documents, users, groups, collections) := found in
  let actor := state_auth_user s in
  documents' <- await (Promise_all (map (presentDocument i s) documents)) ;;
  let users' :=
    map (fun user =>
           presentUser user (can actor "readEmail" user) (can actor "readDetails" user))
        users in
  groups' <- await (Promise_all (map presentGroup groups)) ;;
  Fulfilled
    {| pagination := state_pagination s;
       data := {| data_documents := documents';
                  data_users := users';
                  data_groups := groups';
                  data_collections := collections |} |}.

(** The handler of [suggestions.mention]: the context with [ctx.body] set,
    or the error it throws. *)
Definition mention (db : Database) (ctx : APIContext) : Outcome APIContext :=
  found <- lookups db (input ctx) (state ctx) ;;
  envelope <- respond (input ctx) (state ctx) found ;;
  Fulfilled {| input := input ctx; state := state ctx; body := Some envelope |}.

(** How each of the four lookups of the fan-out fails, if it does. *)
Definition lookupFailures (db : Database) (i : APIInput) (s : APIState)
    (userWhere groupWhere : WhereOptions) : list (option (nat * Error)) :=
  [ rejection (documentsLookup i s);
    rejection (usersLookup db i s userWhere);
    rejection (groupsLookup db i s groupWhere);
    rejection (collectionsLookup i s) ].

(** The [id] property the scope adds to a [where] object, if any. *)
Definition with_id (c : option Cond) (w : WhereOptions) : WhereOptions :=
  match c with
  | Some c => assign (Attr "id" c) w
  | None => w
  end.

(** The three ways lines 79 to 121 leave the two [where] objects: as they
    were, scoped to the actor's groups and their members, or scoped to the
    actor alone. *)
Inductive Scoped (db : Database) (actor : User.t) : option Cond -> option Cond -> Prop :=
| Unrestricted :
    restrictDirectory actor = false ->
    Scoped db actor None None
| RestrictedToGroups (G : list text) :
    restrictDirectory actor = true ->
    outcome (groupIds actor) = Fulfilled G ->
    G <> [] ->
    outcome (query_status db GroupUsers) = Fulfilled tt ->
    Scoped db actor
      (Some (OpIn (map VText
         (new_Set (map GroupUser.userId (select (groupUsers db) (membershipOptions G)))
          ++ [User.id actor]))))
      (Some (OpIn (map VText G)))
| RestrictedToSelf :
    restrictDirectory actor = true ->
    outcome (groupIds actor) = Fulfilled [] ->
    Scoped db actor (Some (Is (VText (User.id actor)))) (Some (OpIn [])).

End Endpoint.

(* ===================================================================== *)
(** ** A small workspace *)
(* ===================================================================== *)

(** One team with directory isolation switched on: a guest in no group, a
    viewer in two groups (one of them closed to mentions), two members and
    a suspended user; a second team without the preference. *)
Module Example.

Definition t1 : Team.t :=
  {| Team.id := of_ascii "t1";
     Team.preferences := [(OtherPreference "commenting", false);
                          (RestrictExternalDirectory, true)] |}.

Definition t2 : Team.t :=
  {| Team.id := of_ascii "t2"; Team.preferences := [] |}.

Definition user (id name : text) (email : string) (role : UserRole) : User.t :=
  {| User.id := id; User.teamId := of_ascii "t1"; User.name := name;
     User.email := Some (of_ascii email); User.suspendedAt := None;
     User.role := role; User.team := None |}.

Definition alice := user (of_ascii "u-alice") (of_ascii "Alice") "alice@example.com" Member.
Definition gus := user (of_ascii "u-gus") (of_ascii "Gus") "gus@example.com" Guest.
(* "José": the last letter is U+00E9 *)
Definition jose := user (of_ascii "u-jose") (of_ascii "Jos" ++ [233%N]) "j@example.com" Member.
Definition vera := user (of_ascii "u-vera") (of_ascii "Vera") "vera@example.com" Viewer.
Definition root := user (of_ascii "u-root") (of_ascii "Root") "root@example.com" Admin.

Definition bob : User.t :=
  {| User.id := of_ascii "u-bob"; User.teamId := of_ascii "t1";
     User.name := of_ascii "Bob"; User.email := None;
     User.suspendedAt := Some 1700000000%Z;
     User.role := Member; User.team := None |}.

(** The authenticated user comes with its team loaded. *)
Definition signed_in (u : User.t) (team : option Team.t) : User.t :=
  {| User.id := User.id u; User.teamId := User.teamId u; User.name := User.name u;
     User.email := User.email u; User.suspendedAt := User.suspendedAt u;
     User.role := User.role u; User.team := team |}.

Definition engineering : Group.t :=
  {| Group.id := of_ascii "g-eng"; Group.teamId := of_ascii "t1";
     Group.name := of_ascii "Engineering"; Group.disableMentions := false |}.

Definition design : Group.t :=
  {| Group.id := of_ascii "g-design"; Group.teamId := of_ascii "t1";
     Group.name := of_ascii "Design"; Group.disableMentions := false |}.

Definition board : Group.t :=
  {| Group.id := of_ascii "g-board"; Group.teamId := of_ascii "t1";
     Group.name := of_ascii "Board"; Group.disableMentions := true |}.

Definition member (g : Group.t) (u : User.t) : GroupUser.t :=
  {| GroupUser.groupId := Group.id g; GroupUser.userId := User.id u |}.

Definition up : Promise unit := {| settledAt := 1; outcome := Fulfilled tt |}.

Definition db : Database :=
  {| users := [vera; bob; jose; alice; gus; root];
     groups := [engineering; design; board];
     groupUsers := [member engineering vera; member engineering jose;
                    member board vera; member board jose; member design alice];
     query_status := fun _ => up |}.

(** The same tables behind a connection whose [users] query fails at tick
    2 and whose [groups] query fails at tick 5. *)
Definition flaky_db : Database :=
  {| users := users db;
     groups := groups db;
     groupUsers := groupUsers db;
     query_status := fun tb =>
       match tb with
       | Users => {| settledAt := 2; outcome := Rejected "users: connection lost" |}
       | Groups => {| settledAt := 5; outcome := Rejected "groups: timeout" |}
       | GroupUsers => up
       end |}.

#[local] Instance entities : Entities :=
  {| Document := text; Collection := text; PresentedDocument := text;
     PresentedUser := text * bool * bool; PresentedGroup := text |}.

(** Collaborators that answer from the tables above; the search index is
    empty. *)
#[local] Instance collaborators : @Collaborators entities :=
  {| groupIds := fun u =>
       resolved (map GroupUser.groupId
                   (filter (fun gu => text_eqb (GroupUser.userId gu) (User.id u))
                           (groupUsers db)));
     searchTitlesForUser := fun _ _ => {| settledAt := 3; outcome := Fulfilled [] |};
     searchCollectionsForUser := fun _ _ => {| settledAt := 4; outcome := Fulfilled [] |};
     can := fun actor _ u => text_eqb (User.id actor) (User.id u);
     presentDocument := fun _ _ d => resolved d;
     presentUser := fun u includeEmail includeDetails =>
       (User.id u, includeEmail, includeDetails);
     presentGroup := fun g => resolved (Group.id g) |}.


Definition input_of (query : option string) : APIInput :=
  {| input_query := option_map of_ascii query |}.

Definition state_of (actor : User.t) (offset limit : nat) : APIState :=
  {| state_pagination := {| Pagination.offset := offset; Pagination.limit := limit |};
     state_auth_user := signed_in actor (Some t1) |}.

(** The same tables when the membership query fails. *)
Definition memberships_down_db : Database :=
  {| users := users db;
     groups := groups db;
     groupUsers := groupUsers db;
     query_status := fun tb =>
       match tb with
       | GroupUsers => {| settledAt := 1; outcome := Rejected "group_users: timeout" |}
       | _ => up
       end |}.

(** Collaborators whose [groupIds] lookup fails. *)
Definition without_groupIds : @Collaborators entities :=
  {| groupIds := fun _ => {| settledAt := 1; outcome := Rejected "groupIds: unavailable" |};
     searchTitlesForUser := fun _ _ => {| settledAt := 3; outcome := Fulfilled [] |};
     searchCollectionsForUser := fun _ _ => {| settledAt := 4; outcome := Fulfilled [] |};
     can := fun actor _ u => text_eqb (User.id actor) (User.id u);
     presentDocument := fun _ _ d => resolved d;
     presentUser := fun u includeEmail includeDetails =>
       (User.id u, includeEmail, includeDetails);
     presentGroup := fun g => resolved (Group.id g) |}.

(** Collaborators with three documents and two collections in the search
    index; presenting ["Draft"] fails at tick 5 and presenting ["Notes"]
    at tick 2. *)
Definition with_documents : @Collaborators entities :=
  {| groupIds := fun _ => resolved [];
     searchTitlesForUser := fun _ _ =>
       {| settledAt := 3;
          outcome := Fulfilled [of_ascii "Roadmap"; of_ascii "Draft"; of_ascii "Notes"] |};
     searchCollectionsForUser := fun _ _ =>
       {| settledAt := 4; outcome := Fulfilled [of_ascii "Handbook"; of_ascii "Archive"] |};
     can := fun actor _ u => text_eqb (User.id actor) (User.id u);
     presentDocument := fun _ _ d =>
       if text_eqb d (of_ascii "Draft")
       then {| settledAt := 5; outcome := Rejected "presentDocument: Draft" |}
       else if text_eqb d (of_ascii "Notes")
       then {| settledAt := 2; outcome := Rejected "presentDocument: Notes" |}
       else resolved (of_ascii "doc:" ++ d);
     presentUser := fun u includeEmail includeDetails =>
       (User.id u, includeEmail, includeDetails);
     presentGroup := fun g => resolved (Group.id g) |}.

(** The same index when every document can be presented. *)
Definition with_presentable_documents : @Collaborators entities :=
  {| groupIds := fun _ => resolved [];
     searchTitlesForUser := fun _ _ =>
       {| settledAt := 3;
          outcome := Fulfilled [of_ascii "Roadmap"; of_ascii "Notes"] |};
     searchCollectionsForUser := fun _ _ =>
       {| settledAt := 4; outcome := Fulfilled [of_ascii "Handbook"; of_ascii "Archive"] |};
     can := fun actor _ u => text_eqb (User.id actor) (User.id u);
     presentDocument := fun _ _ d => resolved (of_ascii "doc:" ++ d);
     presentUser := fun u includeEmail includeDetails =>
       (User.id u, includeEmail, includeDetails);
     presentGroup := fun g => resolved (Group.id g) |}.

(** Collaborators for which a group whose mentions are open cannot be
    presented when its name starts with ["D"] (at tick 6) or with ["E"] (at
    tick 3). *)
Definition with_unpresentable_groups : @Collaborators entities :=
  {| groupIds := fun _ => resolved [];
     searchTitlesForUser := fun _ _ =>
       {| settledAt := 3; outcome := Fulfilled [of_ascii "Roadmap"] |};
     searchCollectionsForUser := fun _ _ => {| settledAt := 4; outcome := Fulfilled [] |};
     can := fun actor _ u => text_eqb (User.id actor) (User.id u);
     presentDocument := fun _ _ d => resolved (of_ascii "doc:" ++ d);
     presentUser := fun u includeEmail includeDetails =>
       (User.id u, includeEmail, includeDetails);
     presentGroup := fun g =>
       if prefixb (of_ascii "D") (Group.name g)
       then {| settledAt := 6; outcome := Rejected "presentGroup: Design" |}
       else if prefixb (of_ascii "E") (Group.name g)
       then {| settledAt := 3; outcome := Rejected "presentGroup: Engineering" |}
       else resolved (Group.id g) |}.

(** A user and a group of the other team, in the same tables. *)
Definition zed : User.t :=
  {| User.id := of_ascii "u-zed"; User.teamId := of_ascii "t2";
     User.name := of_ascii "Zed"; User.email := Some (of_ascii "zed@example.org");
     User.suspendedAt := None; User.role := Member; User.team := None |}.

Definition sales : Group.t :=
  {| Group.id := of_ascii "g-sales"; Group.teamId := of_ascii "t2";
     Group.name := of_ascii "Sales"; Group.disableMentions := false |}.

Definition two_team_db : Database :=
  {| users := zed :: users db;
     groups := sales :: groups db;
     groupUsers := member sales zed :: groupUsers db;
     query_status := fun _ => up |}.

(** The tables of [db], scanned in another order. *)
Definition rescanned_db : Database :=
  {| users := rev (users db);
     groups := rev (groups db);
     groupUsers := rev (groupUsers db);
     query_status := fun _ => up |}.

(** Two users of team t1 with one name, and the two orders in which a
    scan can yield them. *)
Definition sam1 := user (of_ascii "u-sam1") (of_ascii "Sam") "sam1@example.com" Member.
Definition sam2 := user (of_ascii "u-sam2") (of_ascii "Sam") "sam2@example.com" Member.

Definition namesakes_db : Database :=
  {| users := [sam1; sam2]; groups := []; groupUsers := [];
     query_status := fun _ => up |}.

Definition namesakes_rescanned_db : Database :=
  {| users := [sam2; sam1]; groups := []; groupUsers := [];
     query_status := fun _ => up |}.

(** A group whose name has a zero in it. *)
Definition r2d0 : Group.t :=
  {| Group.id := of_ascii "g-r2d0"; Group.teamId := of_ascii "t1";
     Group.name := of_ascii "R2D0"; Group.disableMentions := false |}.

End Example.

(* ===================================================================== *)
(** ** Lemmas: text and [LIKE] *)
(* ===================================================================== *)

Lemma text_eqb_eq (a b : text) : text_eqb a b = true <-> a = b.
Proof.
  unfold text_eqb. destruct (list_eq_dec N.eq_dec a b); split; congruence.
Qed.

Lemma prefixb_nil_l (s : text) : prefixb [] s = true.
Proof. now destruct s. Qed.

(** The unfolding of [like] at a leading [%]. *)
Lemma like_percent (p s : text) :
  like (percent :: p) s =
  like p s || match s with [] => false | _ :: s' => like (percent :: p) s' end.
Proof. now destruct s. Qed.

Lemma like_percent_end (s : text) : like [percent] s = true.
Proof.
  induction s as [|x s IH]; [reflexivity|].
  rewrite like_percent, IH. apply orb_true_r.
Qed.

(** One [%] already lets everything through, so more of them do too. *)
Lemma like_percent_more (p s : text) :
  (forall s', like p s' = true) -> like (percent :: p) s = true.
Proof.
  intros Hp. rewrite like_percent, Hp. reflexivity.
Qed.

Lemma like_any (s : text) : like [percent; percent; percent] s = true.
Proof.
  apply like_percent_more. intro. apply like_percent_more. apply like_percent_end.
Qed.

(** A character that [LIKE] does not read specially matches itself. *)
Lemma like_plain (c : codepoint) (p s : text) :
  is_meta c = false ->
  like (c :: p) s =
  match s with [] => false | x :: s' => (c =? x)%N && like p s' end.
Proof.
  unfold is_meta. intros Hc.
  apply orb_false_elim in Hc as [Hc Hb].
  apply orb_false_elim in Hc as [Hp Hu].
  simpl. rewrite Hp, Hu, Hb. now destruct s.
Qed.

Lemma like_plain_prefix (q : text) :
  Forall (fun c => is_meta c = false) q ->
  forall s, like (q ++ [percent]) s = prefixb q s.
Proof.
  intros Hq. induction Hq as [|c q Hc Hq IH]; intro s.
  - rewrite prefixb_nil_l. apply like_percent_end.
  - change ((c :: q) ++ [percent]) with (c :: (q ++ [percent])).
    rewrite like_plain by assumption.
    destruct s as [|x s]; [reflexivity|]. simpl. now rewrite IH.
Qed.

(** Between two [%], a query without special characters is a substring
    search. *)
Lemma like_substring (q : text) :
  Forall (fun c => is_meta c = false) q ->
  forall s, like (percent :: q ++ [percent]) s = substringb q s.
Proof.
  intros Hq s. induction s as [|x s IH].
  - rewrite like_percent, like_plain_prefix by auto. simpl. now rewrite orb_false_r.
  - rewrite like_percent, like_plain_prefix, IH by auto. reflexivity.
Qed.

(** A pattern that ends in [%] is well formed, whatever comes before. *)
Lemma pattern_ok_percent_end (p : text) :
  pattern_ok (p ++ [percent]) = true /\
  forall c, pattern_ok (c :: p ++ [percent]) = true.
Proof.
  induction p as [|x p [IH1 IH2]].
  - split; [reflexivity|]. intro c. simpl. now destruct (c =? backslash)%N.
  - split; [apply IH2|].
    intro c. change (pattern_ok (c :: x :: (p ++ [percent])) = true).
    cbn [pattern_ok]. destruct (c =? backslash)%N; [exact IH1 | apply IH2].
Qed.

Section NormalizeLemmas.
Context `{Collation}.

Lemma normalize_app (a b : text) : normalize (a ++ b) = normalize a ++ normalize b.
Proof.
  unfold normalize, sql_unaccent, sql_lower. now rewrite map_app, flat_map_app.
Qed.

Lemma normalize_percent : normalize [percent] = [percent].
Proof.
  unfold normalize, sql_unaccent, sql_lower. simpl.
  now rewrite lower_percent, unaccent_percent.
Qed.

(** The pattern the database sees for a query [q] is [%], the normalized
    query, [%]. *)
Lemma normalize_template (q : text) :
  normalize (percent :: q ++ [percent]) = percent :: normalize q ++ [percent].
Proof.
  change (percent :: q ++ [percent]) with ([percent] ++ q ++ [percent]).
  now rewrite !normalize_app, normalize_percent.
Qed.

Lemma normalize_ends_with_percent (t : text) :
  normalize (t ++ [percent]) = normalize t ++ [percent].
Proof.
  now rewrite normalize_app, normalize_percent.
Qed.

Lemma nul_free_unchanged (b t : text) :
  ~ In nul t -> flat_map (fun c => if (c =? nul)%N then b else [c]) t = t.
Proof.
  induction t as [|c t IH]; simpl; intros Hnul; [reflexivity|].
  destruct (N.eqb_spec c nul) as [->|_]; [tauto|].
  simpl. f_equal. apply IH. tauto.
Qed.

(** The escape leaves a text without NUL as it is. *)
Lemma escape_without_nul (t : text) : ~ In nul t -> escape t = t.
Proof. apply nul_free_unchanged. Qed.

Lemma escape_app (a b : text) : escape (a ++ b) = escape a ++ escape b.
Proof. unfold escape. apply flat_map_app. Qed.

Lemma escape_template (q : text) :
  escape (percent :: q ++ [percent]) = percent :: escape q ++ [percent].
Proof.
  change (percent :: q ++ [percent]) with ([percent] ++ q ++ [percent]).
  now rewrite !escape_app.
Qed.

(** Normalizing an escaped text is normalizing the text and then writing
    each NUL as the normalized escape sequence: the normalized form tells
    where the NULs are. *)
Lemma normalize_escape (t : text) :
  normalize (escape t)
  = flat_map (fun c => if (c =? nul)%N then normalize [backslash; 48%N] else [c])
      (normalize t).
Proof.
  induction t as [|c t IH]; [reflexivity|].
  change (c :: t) with ([c] ++ t).
  rewrite escape_app, !normalize_app, flat_map_app, IH. f_equal.
  unfold escape. cbn [flat_map]. rewrite app_nil_r.
  destruct (N.eqb_spec c nul) as [->|Hc].
  - assert (Hnul : normalize [nul] = [nul]).
    { unfold normalize, sql_unaccent, sql_lower. cbn [map flat_map].
      now rewrite (proj2 (lower_nul nul) eq_refl), unaccent_nul. }
    rewrite Hnul. cbn [flat_map]. rewrite N.eqb_refl. now rewrite app_nil_r.
  - assert (Hfree : ~ In nul (normalize [c])).
    { unfold normalize, sql_unaccent, sql_lower. cbn [map flat_map].
      rewrite app_nil_r. apply unaccent_not_nul. now rewrite lower_nul. }
    symmetry. now apply nul_free_unchanged.
Qed.

End NormalizeLemmas.

(* ===================================================================== *)
(** ** Lemmas: [where] objects and [findAll] *)
(* ===================================================================== *)

Lemma existsb_text_In (x : text) (l : list text) :
  existsb (value_eqb (VText x)) (map VText l) = true <-> In x l.
Proof.
  induction l as [|y l IH]; simpl.
  - split; [discriminate | contradiction].
  - rewrite orb_true_iff, IH, text_eqb_eq. intuition congruence.
Qed.

Lemma new_Set_acc (l seen : list text) (x : text) :
  In x (fold_left (fun seen x => if existsb (text_eqb x) seen then seen else seen ++ [x]) l seen)
  <-> In x seen \/ In x l.
Proof.
  revert seen. induction l as [|y l IH]; intro seen; simpl.
  - tauto.
  - rewrite IH. destruct (existsb (text_eqb y) seen) eqn:E.
    + apply existsb_exists in E as (z & Hz & Ezy). apply text_eqb_eq in Ezy. subst z.
      intuition (subst; auto).
    + rewrite in_app_iff. simpl. tauto.
Qed.

(** [new Set] neither adds nor loses an id. *)
Lemma new_Set_In (l : list text) (x : text) : In x (new_Set l) <-> In x l.
Proof.
  unfold new_Set. rewrite new_Set_acc. simpl. tauto.
Qed.

Lemma filter_none {A} (p : A -> bool) (l : list A) :
  (forall x, In x l -> p x = false) -> filter p l = [].
Proof.
  induction l as [|a l IH]; simpl; intros Hp; [reflexivity|].
  rewrite (Hp a) by auto. apply IH. auto.
Qed.

(** With a key [f], at most one row of the table can pass a filter that
    pins [f] down. *)
Lemma filter_unique {A B} (f : A -> B) (p : A -> bool) (l : list A) (r : A) :
  NoDup (map f l) -> In r l -> p r = true ->
  (forall x, In x l -> p x = true -> f x = f r) ->
  filter p l = [r].
Proof.
  induction l as [|a l IH]; simpl; intros Hnd Hr Hpr Hkey; [contradiction|].
  inversion Hnd as [|? ? Hnotin Hnd']; subst.
  destruct Hr as [->|Hr].
  - rewrite Hpr. f_equal. apply filter_none. intros x Hx.
    destruct (p x) eqn:Hpx; [|reflexivity].
    exfalso. apply Hnotin. rewrite <- (Hkey x (or_intror Hx) Hpx).
    now apply in_map.
  - destruct (p a) eqn:Hpa.
    + exfalso. apply Hnotin. rewrite (Hkey a (or_introl eq_refl) Hpa).
      now apply in_map.
    + apply IH; auto.
Qed.

Lemma In_firstn {A} (n : nat) (l : list A) (x : A) : In x (firstn n l) -> In x l.
Proof.
  revert l. induction n as [|n IH]; intros [|a l]; simpl; try tauto.
  intros [->|Hx]; auto.
Qed.

Lemma In_skipn {A} (n : nat) (l : list A) (x : A) : In x (skipn n l) -> In x l.
Proof.
  revert l. induction n as [|n IH]; intros [|a l]; simpl; auto.
Qed.

Section SelectLemmas.
Context `{Collation} {R : Type} `{Model R}.

Lemma insert_row_In (o : list (string * Direction)) (a x : R) (l : list R) :
  In x (insert_row o a l) <-> x = a \/ In x l.
Proof.
  induction l as [|b l IH]; simpl.
  - intuition.
  - destruct (row_leb o a b); simpl; [intuition|]. rewrite IH. intuition.
Qed.

Lemma sort_rows_In (o : list (string * Direction)) (x : R) (l : list R) :
  In x (sort_rows o l) <-> In x l.
Proof.
  induction l as [|a l IH]; simpl; [tauto|].
  rewrite insert_row_In, IH. intuition.
Qed.

(** The text condition on a column [c] under the replacement [p] for
    [:query]: [LIKE] of the normalized column against the normalized,
    escaped [p]. *)
Lemma eval_like_column (p : text) (r : R) (c : string) :
  eval_literal [("query", p)] r
    (Like (unaccent (LOWER (Col c))) (unaccent (LOWER (Replacement "query"))))
  = match getDataValue r c with
    | VText t => like (normalize (escape p)) (normalize t)
    | _ => false
    end.
Proof.
  unfold eval_literal. cbn [eval_expr]. simpl lookup_replacement. cbn [option_map].
  destruct (getDataValue r c); reflexivity.
Qed.

(** Every selected row is in the table and satisfies the [where] object. *)
Lemma select_In (table : list R) (o : FindOptions) (r : R) :
  In r (select table o) ->
  In r table /\ matches (replacements o) (where_ o) r = true.
Proof.
  unfold select. intros Hr.
  assert (Hs : In r (sort_rows (order o)
                       (filter (matches (replacements o) (where_ o)) table))).
  { destruct (limit o), (offset o);
      repeat (first [apply In_firstn in Hr | apply In_skipn in Hr]); assumption. }
  apply sort_rows_In, filter_In in Hs. exact Hs.
Qed.

(** [LIMIT n] bounds the result. *)
Lemma select_length (table : list R) (o : FindOptions) (n : nat) :
  limit o = Some n -> (List.length (select table o) <= n)%nat.
Proof.
  unfold select. intros ->. apply firstn_le_length.
Qed.

(** Two [where] objects that agree row by row select the same rows. *)
Lemma select_ext (table : list R) (o o' : FindOptions) :
  (forall r, matches (replacements o) (where_ o) r
             = matches (replacements o') (where_ o') r) ->
  order o = order o' -> offset o = offset o' -> limit o = limit o' ->
  select table o = select table o'.
Proof.
  unfold select. intros Hm -> -> ->.
  now rewrite (filter_ext _ _ Hm).
Qed.

(** A [where] object no row satisfies selects nothing. *)
Lemma select_none (table : list R) (o : FindOptions) :
  (forall r, In r table -> matches (replacements o) (where_ o) r = false) ->
  select table o = [].
Proof.
  unfold select. intros Hno. rewrite filter_none by assumption. simpl.
  destruct (offset o) as [n|], (limit o) as [m|];
    rewrite ?skipn_nil, ?firstn_nil; reflexivity.
Qed.

(** A single matching row is the whole first page. *)
Lemma select_single (table : list R) (o : FindOptions) (r : R) (n : nat) :
  filter (matches (replacements o) (where_ o)) table = [r] ->
  offset o = Some 0 -> limit o = Some (S n) ->
  select table o = [r].
Proof.
  unfold select. intros -> -> ->. simpl. now rewrite firstn_nil.
Qed.

End SelectLemmas.

(* ===================================================================== *)
(** ** Lemmas: promises *)
(* ===================================================================== *)

Lemma both_fulfilled {A B} (p : Promise A) (q : Promise B) (a : A) (b : B) :
  outcome (both p q) = Fulfilled (a, b) <->
  outcome p = Fulfilled a /\ outcome q = Fulfilled b.
Proof.
  unfold both. destruct (outcome p), (outcome q); simpl;
    try destruct (_ <=? _)%nat; simpl; split;
    try (intros [? ?]); try intro; try congruence; try (split; congruence).
Qed.

Lemma Promise_all4_fulfilled {A B C D} (p1 : Promise A) (p2 : Promise B)
    (p3 : Promise C) (p4 : Promise D) a b c d :
  outcome (Promise_all4 p1 p2 p3 p4) = Fulfilled (a, b, c, d) <->
  outcome p1 = Fulfilled a /\ outcome p2 = Fulfilled b /\
  outcome p3 = Fulfilled c /\ outcome p4 = Fulfilled d.
Proof.
  unfold Promise_all4. rewrite !both_fulfilled. tauto.
Qed.

(** [Promise.all] fails as its earliest failing promise does. *)
Lemma rejection_both {A B} (p : Promise A) (q : Promise B) :
  rejection (both p q) = earlier (rejection p) (rejection q).
Proof.
  unfold rejection, both, earlier.
  destruct (outcome p), (outcome q); simpl; try reflexivity.
  destruct (_ <=? _)%nat; reflexivity.
Qed.

Lemma rejection_all4 {A B C D} (p1 : Promise A) (p2 : Promise B)
    (p3 : Promise C) (p4 : Promise D) :
  rejection (Promise_all4 p1 p2 p3 p4) =
  earlier (earlier (earlier (rejection p1) (rejection p2)) (rejection p3)) (rejection p4).
Proof.
  unfold Promise_all4. now rewrite !rejection_both.
Qed.

Lemma rejection_all4_earliest {A B C D} (p1 : Promise A) (p2 : Promise B)
    (p3 : Promise C) (p4 : Promise D) :
  rejection (Promise_all4 p1 p2 p3 p4) =
  earliest [rejection p1; rejection p2; rejection p3; rejection p4].
Proof.
  rewrite rejection_all4. reflexivity.
Qed.

Lemma rejection_outcome {A} (p : Promise A) (t : nat) (e : Error) :
  rejection p = Some (t, e) -> outcome p = Rejected e.
Proof.
  unfold rejection. destruct (outcome p); congruence.
Qed.

(** [earlier] picks one of its arguments, and no argument comes before
    the one it picks. *)
Lemma earlier_spec (a b : option (nat * Error)) :
  (a = None /\ b = None /\ earlier a b = None) \/
  exists t e, earlier a b = Some (t, e) /\
    (a = Some (t, e) \/ b = Some (t, e)) /\
    (forall t' e', a = Some (t', e') \/ b = Some (t', e') -> (t <= t')%nat).
Proof.
  destruct a as [[t e]|], b as [[t' e']|]; simpl.
  - right. destruct (t <=? t')%nat eqn:E.
    + apply Nat.leb_le in E. exists t, e. repeat split; auto.
      intros ? ? [X|X]; inversion X; subst; lia.
    + apply Nat.leb_gt in E. exists t', e'. repeat split; auto.
      intros ? ? [X|X]; inversion X; subst; lia.
  - right. exists t, e. repeat split; auto.
    intros ? ? [X|X]; inversion X; subst; lia.
  - right. exists t', e'. repeat split; auto.
    intros ? ? [X|X]; inversion X; subst; lia.
  - left. auto.
Qed.

Lemma fold_earlier_spec (l : list (option (nat * Error))) (a : option (nat * Error)) :
  (a = None /\ (forall x, In x l -> x = None) /\ fold_left earlier l a = None) \/
  exists t e, fold_left earlier l a = Some (t, e) /\
    (a = Some (t, e) \/ In (Some (t, e)) l) /\
    (forall t' e', a = Some (t', e') \/ In (Some (t', e')) l -> (t <= t')%nat).
Proof.
  revert a. induction l as [|x l IH]; intro a; simpl.
  - destruct a as [[t e]|].
    + right. exists t, e. repeat split; auto.
      intros ? ? [X|[]]. inversion X; subst; lia.
    + left. repeat split; auto. contradiction.
  - destruct (IH (earlier a x)) as [(Ha & Hl & Hf) | (t & e & Hf & Hin & Hmin)].
    + left. destruct (earlier_spec a x) as [(-> & -> & _) | (t & e & He & _)];
        [|congruence].
      repeat split; auto. intros y [<-|Hy]; auto.
    + right. exists t, e. split; [assumption|].
      destruct (earlier_spec a x) as [(-> & -> & He) | (t0 & e0 & He & Hpick & Hle)].
      * rewrite He in Hin, Hmin. split.
        -- destruct Hin as [Hin|Hin]; [discriminate|]. auto.
        -- intros t' e' [X|[X|X]]; try discriminate. apply (Hmin t' e'). auto.
      * rewrite He in Hin, Hmin. split.
        -- destruct Hin as [Hin|Hin]; [|auto].
           inversion Hin; subst. destruct Hpick; auto.
        -- intros t' e' [X|[X|X]].
           ++ specialize (Hle t' e' (or_introl X)).
              specialize (Hmin t0 e0 (or_introl eq_refl)). lia.
           ++ specialize (Hle t' e' (or_intror X)).
              specialize (Hmin t0 e0 (or_introl eq_refl)). lia.
           ++ apply (Hmin t' e'). auto.
Qed.

(** If some promise of the list fails, [earliest] is one of the failures
    and none comes before it. *)
Lemma earliest_spec (l : list (option (nat * Error))) :
  (exists f, In (Some f) l) ->
  exists t e, earliest l = Some (t, e) /\ In (Some (t, e)) l /\
    (forall t' e', In (Some (t', e')) l -> (t <= t')%nat).
Proof.
  intros [f Hf]. unfold earliest.
  destruct (fold_earlier_spec l None) as [(_ & Hnone & _) | (t & e & Hr & Hin & Hmin)].
  - specialize (Hnone _ Hf). discriminate.
  - exists t, e. split; [assumption|]. split.
    + destruct Hin as [Hin|Hin]; [discriminate|assumption].
    + intros t' e' Hin'. apply (Hmin t' e'). auto.
Qed.

Lemma findAll_fulfilled `{Collation} {R : Type} `{Model R}
    (db : Database) (tb : Table) (rows l : list R) (o : FindOptions) :
  outcome (findAll db tb rows o) = Fulfilled l -> l = select rows o.
Proof.
  unfold findAll, then_. simpl. destruct (outcome (query_status db tb)); congruence.
Qed.

(* ===================================================================== *)
(** ** Lemmas: the handler *)
(* ===================================================================== *)

Section HandlerLemmas.
Context `{Collation} {E : Entities} {K : @Collaborators E}.

Lemma restrictDirectory_true (actor : User.t) :
  restrictDirectory actor = true <->
  (User.role actor = Viewer \/ User.role actor = Guest) /\
  truthy (optional_getPreference (User.team actor) RestrictExternalDirectory) = true.
Proof.
  unfold restrictDirectory, User.isViewer, User.isGuest.
  rewrite andb_true_iff, orb_true_iff.
  destruct (User.role actor); intuition congruence.
Qed.

(** The pattern built from a query, even from an absent one, is well
    formed: [LIKE] raises no error on it. *)
Lemma query_pattern_ok (query : option text) :
  pattern_ok (normalize (query_template query)) = true.
Proof.
  unfold query_template.
  destruct query as [q|];
    rewrite app_comm_cons, normalize_ends_with_percent;
    apply pattern_ok_percent_end.
Qed.

(** ... and so is the pattern [LIKE] is given, after Sequelize's escape. *)
Lemma escaped_query_pattern_ok (query : option text) :
  pattern_ok (normalize (escape (query_template query))) = true.
Proof.
  unfold query_template.
  destruct query as [q|];
    rewrite app_comm_cons, escape_app, normalize_ends_with_percent;
    apply pattern_ok_percent_end.
Qed.

Lemma userWhere_unscoped_eq (actor : User.t) (query : option text) :
  userWhere_unscoped actor query =
  [ Attr "teamId" (Is (VText (User.teamId actor))); Attr "suspendedAt" (OpEq VNull) ]
  ++ (if query_truthy query then [user_text_filter] else []).
Proof.
  unfold userWhere_unscoped. now destruct (query_truthy query).
Qed.

Lemma groupWhere_unscoped_eq (actor : User.t) (query : option text) :
  groupWhere_unscoped actor query =
  [ Attr "teamId" (Is (VText (User.teamId actor)));
    Attr "disableMentions" (Is (VBool false)) ]
  ++ (if query_truthy query then [group_text_filter] else []).
Proof.
  unfold groupWhere_unscoped. now destruct (query_truthy query).
Qed.

(** Neither unscoped object has an [id] property, so the scope adds one
    condition and takes none away. *)
Lemma matches_with_id_user (rs : list (string * text)) (c : option Cond)
    (actor : User.t) (query : option text) (u : User.t) :
  matches rs (with_id c (userWhere_unscoped actor query)) u =
  matches rs (userWhere_unscoped actor query) u &&
  match c with Some c => eval_cond (VText (User.id u)) c | None => true end.
Proof.
  rewrite userWhere_unscoped_eq.
  destruct c as [c|]; simpl; [|now rewrite andb_true_r].
  destruct (query_truthy query); simpl; rewrite ?andb_true_r, ?andb_assoc; reflexivity.
Qed.

Lemma matches_with_id_group (rs : list (string * text)) (c : option Cond)
    (actor : User.t) (query : option text) (g : Group.t) :
  matches rs (with_id c (groupWhere_unscoped actor query)) g =
  matches rs (groupWhere_unscoped actor query) g &&
  match c with Some c => eval_cond (VText (Group.id g)) c | None => true end.
Proof.
  rewrite groupWhere_unscoped_eq.
  destruct c as [c|]; simpl; [|now rewrite andb_true_r].
  destruct (query_truthy query); simpl; rewrite ?andb_true_r, ?andb_assoc; reflexivity.
Qed.

Lemma userWhere_unscoped_suspended (rs : list (string * text))
    (actor : User.t) (query : option text) (u : User.t) :
  matches rs (userWhere_unscoped actor query) u = true -> User.suspendedAt u = None.
Proof.
  rewrite userWhere_unscoped_eq. simpl.
  destruct (User.suspendedAt u); [|reflexivity].
  simpl. rewrite andb_false_r. discriminate.
Qed.

Lemma groupWhere_unscoped_mentions (rs : list (string * text))
    (actor : User.t) (query : option text) (g : Group.t) :
  matches rs (groupWhere_unscoped actor query) g = true -> Group.disableMentions g = false.
Proof.
  rewrite groupWhere_unscoped_eq. simpl.
  destruct (Group.disableMentions g); [|reflexivity].
  simpl. rewrite andb_false_r. discriminate.
Qed.

(** What [buildWhere] returns: the unscoped objects with the [id]
    conditions of one of the three scopes. *)
Lemma buildWhere_inv (db : Database) (i : APIInput) (s : APIState)
    (uw gw : WhereOptions) :
  buildWhere db i s = Fulfilled (uw, gw) ->
  exists uc gc,
    Scoped db (state_auth_user s) uc gc /\
    uw = with_id uc (userWhere_unscoped (state_auth_user s) (input_query i)) /\
    gw = with_id gc (groupWhere_unscoped (state_auth_user s) (input_query i)).
Proof.
  unfold buildWhere, await.
  destruct (restrictDirectory (state_auth_user s)) eqn:Hr; simpl.
  - destruct (outcome (groupIds (state_auth_user s))) as [G|e] eqn:HG; simpl;
      [|discriminate].
    destruct G as [|g G]; simpl.
    + intros [= <- <-]. eexists _, _. split; [now apply RestrictedToSelf|]. split; reflexivity.
    + unfold GroupUser_findAll, findAll, then_. simpl.
      destruct (outcome (query_status db GroupUsers)) as [[]|e] eqn:Hq; simpl;
        [|discriminate].
      intros [= <- <-]. eexists _, _.
      split; [eapply RestrictedToGroups; eauto; discriminate|].
      split; reflexivity.
  - intros [= <- <-]. exists None, None. split; [now apply Unrestricted|]. split; reflexivity.
Qed.

(** The scope does not depend on the query: the same [id] conditions are
    built for every request body. *)
Lemma buildWhere_intro (db : Database) (i : APIInput) (s : APIState)
    (uc gc : option Cond) :
  Scoped db (state_auth_user s) uc gc ->
  buildWhere db i s =
  Fulfilled (with_id uc (userWhere_unscoped (state_auth_user s) (input_query i)),
             with_id gc (groupWhere_unscoped (state_auth_user s) (input_query i))).
Proof.
  unfold buildWhere, await.
  intros [Hr | G Hr HG HGne Hq | Hr HG]; rewrite Hr; simpl.
  - reflexivity.
  - rewrite HG. simpl. destruct G as [|g G]; [congruence|]. simpl.
    unfold GroupUser_findAll, findAll, then_. simpl. rewrite Hq. reflexivity.
  - rewrite HG. reflexivity.
Qed.

(** A fulfilled fan-out returns the rows [select] finds under the built
    [where] objects. *)
Lemma lookups_inv (db : Database) (i : APIInput) (s : APIState) d us gs cs :
  lookups db i s = Fulfilled (d, us, gs, cs) ->
  exists uc gc,
    Scoped db (state_auth_user s) uc gc /\
    us = select (users db)
           (lookupOptions i s
              (with_id uc (userWhere_unscoped (state_auth_user s) (input_query i)))) /\
    gs = select (groups db)
           (lookupOptions i s
              (with_id gc (groupWhere_unscoped (state_auth_user s) (input_query i)))).
Proof.
  unfold lookups.
  destruct (buildWhere db i s) as [[uw gw]|e] eqn:Hb; simpl; [|discriminate].
  apply buildWhere_inv in Hb as (uc & gc & Hsc & -> & ->).
  unfold await, fanOut. intros Hf.
  apply Promise_all4_fulfilled in Hf as (_ & Hu & Hg & _).
  apply findAll_fulfilled in Hu. apply findAll_fulfilled in Hg.
  now exists uc, gc.
Qed.

End HandlerLemmas.

(* ===================================================================== *)
(** ** Properties of the endpoint *)
(* ===================================================================== *)

Lemma getPreference_absent (ps : list (TeamPreference * bool)) (p : TeamPreference) :
  (forall b, ~ In (p, b) ps) -> Team.getPreference_in ps p = JSUndefined.
Proof.
  induction ps as [|[k b] ps IH]; simpl; intros Hp; [reflexivity|].
  destruct (Team.preference_eqb k p) eqn:E.
  - exfalso. apply (Hp b). left. f_equal.
    destruct k, p; simpl in E; try discriminate; try reflexivity.
    apply String.eqb_eq in E. now subst.
  - apply IH. intros b' Hb'. apply (Hp b'). now right.
Qed.

(** C3. Directory restriction applies exactly when the actor is a Viewer
    or a Guest and the team preference [RestrictExternalDirectory] is
    truthy.  It never applies to a Member or an Admin, whatever the
    preference; an actor without a team, or a team without the preference,
    is not restricted. *)
Theorem restriction_iff_external_role_and_preference (actor : User.t) :
  (restrictDirectory actor = true <->
     (User.role actor = Viewer \/ User.role actor = Guest) /\
     truthy (optional_getPreference (User.team actor) RestrictExternalDirectory) = true) /\
  (User.role actor = Member \/ User.role actor = Admin ->
     restrictDirectory actor = false) /\
  (User.team actor = None -> restrictDirectory actor = false) /\
  (forall team, User.team actor = Some team ->
     (forall b, ~ In (RestrictExternalDirectory, b) (Team.preferences team)) ->
     restrictDirectory actor = false).
Proof.
  split; [apply restrictDirectory_true|].
  unfold restrictDirectory, User.isViewer, User.isGuest.
  split; [|split].
  - intros [-> | ->]; reflexivity.
  - intros ->. simpl. apply andb_false_r.
  - intros team -> Habsent. simpl. unfold Team.getPreference.
    rewrite getPreference_absent by assumption. apply andb_false_r.
Qed.

(** A row of a lookup's result satisfies the [where] object of its options. *)
Ltac selected Hin Hm :=
  apply select_In in Hin as [? Hm];
  unfold lookupOptions, membershipOptions in Hm;
  cbn [replacements where_] in Hm.

Section Properties.
Context `{Collation} {E : Entities} {K : @Collaborators E}.

(** C2. For a Viewer or Guest whose team has the preference on and whose
    group set [G] is not empty, every user the lookup returns is the actor
    or a member of a group of [G], and every group it returns is in [G]. *)
Theorem restricted_results_within_actor_groups
    (db : Database) (i : APIInput) (s : APIState) (G : list text) d us gs cs :
  User.role (state_auth_user s) = Viewer \/ User.role (state_auth_user s) = Guest ->
  truthy (optional_getPreference (User.team (state_auth_user s))
            RestrictExternalDirectory) = true ->
  outcome (groupIds (state_auth_user s)) = Fulfilled G ->
  G <> [] ->
  lookups db i s = Fulfilled (d, us, gs, cs) ->
  (forall u, In u us ->
     User.id u = User.id (state_auth_user s) \/
     exists gu, In gu (groupUsers db) /\
                In (GroupUser.groupId gu) G /\
                GroupUser.userId gu = User.id u) /\
  (forall g, In g gs -> In (Group.id g) G).
Proof.
  intros Hrole Hpref HG HGne Hl.
  assert (Hr : restrictDirectory (state_auth_user s) = true)
    by (apply restrictDirectory_true; auto).
  apply lookups_inv in Hl as (uc & gc & Hsc & -> & ->).
  destruct Hsc as [Hr' | G' _ HG' _ _ | _ HG']; [congruence| |congruence].
  assert (G' = G) by congruence. subst G'. clear HG'.
  split.
  - intros u Hu. selected Hu Hm.
    rewrite matches_with_id_user in Hm. apply andb_true_iff in Hm as [_ Hid].
    simpl in Hid. apply existsb_text_In, in_app_iff in Hid as [Hin | [<- | []]]; [|now left].
    right. apply new_Set_In, in_map_iff in Hin as (gu & Hgu & Hsel).
    selected Hsel Hm. simpl in Hm.
    rewrite andb_true_r in Hm. apply existsb_text_In in Hm.
    now exists gu.
  - intros g Hg. selected Hg Hm.
    rewrite matches_with_id_group in Hm. apply andb_true_iff in Hm as [_ Hid].
    simpl in Hid. now apply existsb_text_In in Hid.
Qed.

(** C4. Whatever the query and the scope, no group with [disableMentions]
    set is among the groups the lookup returns. *)
Theorem no_group_with_mentions_disabled
    (db : Database) (i : APIInput) (s : APIState) d us gs cs :
  lookups db i s = Fulfilled (d, us, gs, cs) ->
  forall g, In g gs -> Group.disableMentions g = false.
Proof.
  intros Hl g Hg.
  apply lookups_inv in Hl as (uc & gc & _ & _ & ->).
  selected Hg Hm.
  rewrite matches_with_id_group in Hm. apply andb_true_iff in Hm as [Hm _].
  eapply groupWhere_unscoped_mentions, Hm.
Qed.

(** C5. Whatever the query and the scope, no user with a suspension
    timestamp is among the users the lookup returns. *)
Theorem no_suspended_user
    (db : Database) (i : APIInput) (s : APIState) d us gs cs :
  lookups db i s = Fulfilled (d, us, gs, cs) ->
  forall u, In u us -> User.suspendedAt u = None.
Proof.
  intros Hl u Hu.
  apply lookups_inv in Hl as (uc & gc & _ & -> & _).
  selected Hu Hm.
  rewrite matches_with_id_user in Hm. apply andb_true_iff in Hm as [Hm _].
  eapply userWhere_unscoped_suspended, Hm.
Qed.

(** C10. Under each scope the user predicate the handler builds accepts
    the actor's own record as soon as that record passes the base and text
    filters: the [id] condition of the scope always admits [actor.id]. *)
Theorem actor_passes_own_scope
    (db : Database) (i : APIInput) (s : APIState) (uw gw : WhereOptions) (r : User.t) :
  buildWhere db i s = Fulfilled (uw, gw) ->
  User.id r = User.id (state_auth_user s) ->
  matches [("query", query_template (input_query i))]
    (userWhere_unscoped (state_auth_user s) (input_query i)) r = true ->
  matches [("query", query_template (input_query i))] uw r = true.
Proof.
  intros Hb Hid Hm.
  apply buildWhere_inv in Hb as (uc & gc & Hsc & -> & _).
  rewrite matches_with_id_user, Hm. simpl.
  destruct Hsc as [_ | G _ _ _ _ | _ _]; simpl.
  - reflexivity.
  - apply existsb_text_In, in_app_iff. right. left. now symmetry.
  - apply text_eqb_eq. assumption.
Qed.

(** C1, as the code has it. For a Viewer or Guest whose team has the
    preference on and who is in no group, the lookup returns no group,
    whatever the query, and no user but the actor.  The text filter and the
    page still apply: the actor's own record is returned, alone, when it
    passes the base and text filters and the page starts at offset 0. *)
Theorem restricted_without_groups_sees_at_most_self
    (db : Database) (i : APIInput) (s : APIState) d us gs cs :
  User.role (state_auth_user s) = Viewer \/ User.role (state_auth_user s) = Guest ->
  truthy (optional_getPreference (User.team (state_auth_user s))
            RestrictExternalDirectory) = true ->
  outcome (groupIds (state_auth_user s)) = Fulfilled [] ->
  lookups db i s = Fulfilled (d, us, gs, cs) ->
  gs = [] /\
  (forall u, In u us -> User.id u = User.id (state_auth_user s)) /\
  (forall r,
     NoDup (map User.id (users db)) ->
     In r (users db) ->
     User.id r = User.id (state_auth_user s) ->
     matches [("query", query_template (input_query i))]
       (userWhere_unscoped (state_auth_user s) (input_query i)) r = true ->
     Pagination.offset (state_pagination s) = 0 ->
     0 < Pagination.limit (state_pagination s) ->
     us = [r]).
Proof.
  intros Hrole Hpref HG Hl.
  assert (Hr : restrictDirectory (state_auth_user s) = true)
    by (apply restrictDirectory_true; auto).
  apply lookups_inv in Hl as (uc & gc & Hsc & -> & ->).
  destruct Hsc as [Hr' | G' _ HG' HGne _ | _ _]; [congruence|congruence|].
  split; [|split].
  - apply select_none. intros g _.
    unfold lookupOptions. cbn [replacements where_].
    rewrite matches_with_id_group. apply andb_false_r.
  - intros u Hu. selected Hu Hm.
    rewrite matches_with_id_user in Hm. apply andb_true_iff in Hm as [_ Hid].
    now apply text_eqb_eq in Hid.
  - intros r Hnd Hin Hid Hm Hoff Hlim.
    destruct (Pagination.limit (state_pagination s)) as [|n] eqn:En; [lia|].
    apply select_single with (n := n).
    + unfold lookupOptions. cbn [replacements where_].
      apply filter_unique with (f := User.id); trivial.
      * rewrite matches_with_id_user, Hm. simpl. now apply text_eqb_eq.
      * intros x _ Hx. rewrite matches_with_id_user in Hx.
        apply andb_true_iff in Hx as [_ Hx]. apply text_eqb_eq in Hx. congruence.
    + unfold lookupOptions. cbn [offset]. now rewrite Hoff.
    + unfold lookupOptions. cbn [limit]. now rewrite En.
Qed.

(** C7, as the code has it. The query ["%"] reaches [LIKE] unescaped: the
    pattern is ["%%%"], a well-formed pattern that matches every name.  The
    lookup then returns at most [limit] users and [limit] groups, and they
    are the users and groups the same request returns without a query. *)
Theorem percent_query_matches_everything
    (db : Database) (s : APIState) d us gs cs :
  lookups db {| input_query := Some [percent] |} s = Fulfilled (d, us, gs, cs) ->
  normalize (query_template (Some [percent])) = [percent; percent; percent] /\
  pattern_ok (normalize (query_template (Some [percent]))) = true /\
  (forall name, like (normalize (query_template (Some [percent]))) name = true) /\
  List.length us <= Pagination.limit (state_pagination s) /\
  List.length gs <= Pagination.limit (state_pagination s) /\
  (forall d' us' gs' cs',
     lookups db {| input_query := None |} s = Fulfilled (d', us', gs', cs') ->
     us' = us /\ gs' = gs).
Proof.
  intros Hl.
  assert (Hpat : normalize (query_template (Some [percent]))
                 = [percent; percent; percent]).
  { unfold query_template. now rewrite normalize_template, normalize_percent. }
  split; [exact Hpat|].
  split; [apply query_pattern_ok|].
  split; [intro; rewrite Hpat; apply like_any|].
  apply lookups_inv in Hl as (uc & gc & Hsc & -> & ->).
  split; [now apply select_length|]. split; [now apply select_length|].
  intros d' us' gs' cs' Hl'.
  unfold lookups in Hl'. rewrite (buildWhere_intro {| input_query := None |} s Hsc) in Hl'. simpl in Hl'.
  unfold await, fanOut in Hl'.
  apply Promise_all4_fulfilled in Hl' as (_ & Hu & Hg & _).
  apply findAll_fulfilled in Hu. apply findAll_fulfilled in Hg. subst us' gs'.
  split; apply select_ext; trivial; intro r;
    unfold lookupOptions; cbn [replacements where_ input_query].
  - rewrite !matches_with_id_user. f_equal.
    rewrite !userWhere_unscoped_eq. cbn [query_truthy app matches forallb].
    f_equal. f_equal.
    unfold user_text_filter, email_like, name_like.
    cbn [eval_item eval_clause existsb]. rewrite !eval_like_column.
    change (escape (query_template (Some [percent])))
      with (query_template (Some [percent])).
    rewrite Hpat. cbn [getDataValue User.model].
    simpl (String.eqb _ _). cbv iota. rewrite like_any. now rewrite orb_true_r.
  - rewrite !matches_with_id_group. f_equal.
    rewrite !groupWhere_unscoped_eq. cbn [query_truthy app matches forallb].
    f_equal. f_equal.
    unfold group_text_filter, name_like.
    cbn [eval_item eval_clause]. rewrite eval_like_column.
    change (escape (query_template (Some [percent])))
      with (query_template (Some [percent])).
    rewrite Hpat. cbn [getDataValue Group.model].
    simpl (String.eqb _ _). cbv iota. now rewrite like_any.
Qed.

(** C6, as the code has it. The text filter is part of the [where] objects
    exactly when the query is a non-empty string.  For a query without a
    NUL character (which Sequelize writes as a backslash and a 0) whose
    normalized form has none of the characters [LIKE] reads specially
    ([%], [_] and the backslash) it is a substring search after both sides
    are stripped of accents and lower-cased: in a group's name, and for a
    user in the e-mail address or the name.  So ["jose"] finds ["José"]. *)
Theorem text_filter_is_normalized_substring_search
    (actor : User.t) (query : option text) :
  (In user_text_filter (userWhere_unscoped actor query) <->
     exists q, query = Some q /\ q <> []) /\
  (In group_text_filter (groupWhere_unscoped actor query) <->
     exists q, query = Some q /\ q <> []) /\
  (forall q, query = Some q ->
     ~ In nul q ->
     Forall (fun c => is_meta c = false) (normalize q) ->
     (forall g : Group.t,
        eval_item [("query", query_template query)] g group_text_filter
        = substringb (normalize q) (normalize (Group.name g))) /\
     (forall u : User.t,
        eval_item [("query", query_template query)] u user_text_filter
        = match User.email u with
          | Some e => substringb (normalize q) (normalize e)
          | None => false
          end
          || substringb (normalize q) (normalize (User.name u)))) /\
  eval_literal (H := latin1) [("query", query_template (Some (of_ascii "jose")))]
    Example.jose name_like = true.
Proof.
  assert (Htruthy : query_truthy query = true <-> exists q, query = Some q /\ q <> []).
  { destruct query as [[|c q0]|]; simpl; split; try discriminate; trivial.
    - intros (q & Hq & Hne). inversion Hq. congruence.
    - intros _. eexists. split; [reflexivity|discriminate].
    - intros (q & Hq & _). discriminate. }
  split; [|split; [|split]].
  - rewrite <- Htruthy, userWhere_unscoped_eq.
    destruct (query_truthy query); simpl; intuition discriminate.
  - rewrite <- Htruthy, groupWhere_unscoped_eq.
    destruct (query_truthy query); simpl; intuition discriminate.
  - intros q -> Hnul Hq.
    assert (Hlike : forall t,
               like (normalize (escape (query_template (Some q)))) (normalize t)
               = substringb (normalize q) (normalize t)).
    { intro t. unfold query_template.
      rewrite escape_template, escape_without_nul, normalize_template by assumption.
      now apply like_substring. }
    split.
    + intro g. unfold group_text_filter, name_like.
      cbn [eval_item eval_clause]. rewrite eval_like_column. apply Hlike.
    + intro u. unfold user_text_filter, email_like, name_like.
      cbn [eval_item eval_clause existsb]. rewrite !eval_like_column, orb_false_r.
      cbn [getDataValue User.model]. simpl (String.eqb _ _). cbv iota.
      rewrite Hlike. destruct (User.email u) as [e|]; [now rewrite Hlike|reflexivity].
  - reflexivity.
Qed.

(** C8. Once the [where] objects are built, if one of the four lookups of
    the fan-out fails, the handler fails: it sets no body, and the error it
    throws is that of the lookup that failed first. *)
Theorem failed_lookup_fails_request
    (db : Database) (ctx : APIContext) (uw gw : WhereOptions) :
  buildWhere db (input ctx) (state ctx) = Fulfilled (uw, gw) ->
  (exists f, In (Some f) (lookupFailures db (input ctx) (state ctx) uw gw)) ->
  exists t e,
    In (Some (t, e)) (lookupFailures db (input ctx) (state ctx) uw gw) /\
    (forall t' e', In (Some (t', e')) (lookupFailures db (input ctx) (state ctx) uw gw) ->
                   t <= t') /\
    mention db ctx = Rejected e.
Proof.
  intros Hb Hfail.
  apply earliest_spec in Hfail as (t & e & He & Hin & Hmin).
  exists t, e. split; [assumption|]. split; [assumption|].
  unfold lookupFailures in He. rewrite <- rejection_all4_earliest in He.
  apply rejection_outcome in He.
  unfold mention, lookups. rewrite Hb. simpl.
  unfold await, fanOut. rewrite He. reflexivity.
Qed.

End Properties.

(* ===================================================================== *)
(** ** The properties on the small workspace *)
(* ===================================================================== *)

Section Workspace.
Import Example.
#[local] Existing Instance latin1.
#[local] Existing Instance entities.
#[local] Existing Instance collaborators.

(** C1 fails as stated: Gus is a Guest of a team with the preference on and
    is in no group, his record is in the table, and for the query ["zzz"]
    the lookup returns no user at all, not Gus. *)
Lemma guest_without_groups_and_unmatched_query_sees_nobody :
  User.role (state_auth_user (state_of gus 0 10)) = Guest /\
  truthy (optional_getPreference (User.team (state_auth_user (state_of gus 0 10)))
            RestrictExternalDirectory) = true /\
  outcome (groupIds (state_auth_user (state_of gus 0 10))) = Fulfilled [] /\
  In gus (users db) /\
  lookups db (input_of (Some "zzz")) (state_of gus 0 10) = Fulfilled ([], [], [], []) /\
  lookups db (input_of None) (state_of gus 1 10) = Fulfilled ([], [], [], []).
Proof.
  repeat split; try reflexivity. simpl. tauto.
Qed.

(** Without a query and from offset 0, Gus sees himself and no group. *)
Lemma guest_without_groups_sees_self :
  lookups db (input_of None) (state_of gus 0 10) = Fulfilled ([], [gus], [], []) /\
  (forall u, In u [gus] -> User.id u = User.id gus) /\
  (forall r, In r (users db) -> User.id r = User.id gus -> [gus] = [r]).
Proof.
  split; [reflexivity|].
  destruct (@restricted_without_groups_sees_at_most_self latin1 entities collaborators
              db (input_of None) (state_of gus 0 10) [] [gus] [] [])
    as (_ & Hself & Hexact).
  - right. reflexivity.
  - reflexivity.
  - reflexivity.
  - reflexivity.
  - split; [exact Hself|].
    intros r Hin Hid. apply Hexact; trivial.
    + simpl. repeat constructor; simpl; intuition discriminate.
    + simpl in Hin. simpl in Hid.
      destruct Hin as [<-|[<-|[<-|[<-|[<-|[<-|[]]]]]]]; try discriminate Hid; reflexivity.
    + simpl. lia.
Defined.

(** Vera, a Viewer in Engineering and Board, sees the members of her
    groups and the one group of hers that is open to mentions. *)
Lemma viewer_sees_own_groups :
  lookups db (input_of None) (state_of vera 0 10)
    = Fulfilled ([], [jose; vera], [engineering], []) /\
  (forall u, In u [jose; vera] ->
     User.id u = User.id vera \/
     exists gu, In gu (groupUsers db) /\
                In (GroupUser.groupId gu) [Group.id engineering; Group.id board] /\
                GroupUser.userId gu = User.id u) /\
  (forall g, In g [engineering] ->
     In (Group.id g) [Group.id engineering; Group.id board]).
Proof.
  split; [reflexivity|].
  apply (@restricted_results_within_actor_groups latin1 entities collaborators
           db (input_of None) (state_of vera 0 10)
           [Group.id engineering; Group.id board] [] [jose; vera] [engineering] []).
  - left. reflexivity.
  - reflexivity.
  - reflexivity.
  - discriminate.
  - reflexivity.
Defined.

(** Alice is a Member of the team that has the preference on: she is not
    restricted. *)
Lemma member_is_not_restricted :
  optional_getPreference (User.team (signed_in alice (Some t1)))
    RestrictExternalDirectory = JSBoolean true /\
  restrictDirectory (signed_in alice (Some t1)) = false /\
  restrictDirectory (signed_in gus (Some t1)) = true /\
  restrictDirectory (signed_in gus (Some t2)) = false /\
  restrictDirectory (signed_in gus None) = false.
Proof.
  split; [reflexivity|]. split; [|split; [|split]].
  - apply (proj1 (proj2
      (restriction_iff_external_role_and_preference (signed_in alice (Some t1))))).
    left. reflexivity.
  - apply (proj1 (restriction_iff_external_role_and_preference (signed_in gus (Some t1)))).
    split; [right|]; reflexivity.
  - apply (proj2 (proj2 (proj2
      (restriction_iff_external_role_and_preference (signed_in gus (Some t2)))))
      t2 eq_refl).
    intros b [].
  - apply (proj1 (proj2 (proj2
      (restriction_iff_external_role_and_preference (signed_in gus None))))).
    reflexivity.
Defined.

(** Board has mentions disabled and is not among Vera's groups. *)
Lemma board_is_never_suggested :
  In board (groups db) /\ Group.disableMentions board = true /\
  lookups db (input_of (Some "o")) (state_of alice 0 10)
    = Fulfilled ([], [alice; gus; jose; root; vera], [], []) /\
  lookups db (input_of None) (state_of vera 0 10)
    = Fulfilled ([], [jose; vera], [engineering], []) /\
  (forall g, In g [engineering] -> Group.disableMentions g = false).
Proof.
  split; [simpl; tauto|]. repeat (split; [reflexivity|]).
  apply (@no_group_with_mentions_disabled latin1 entities collaborators
           db (input_of None) (state_of vera 0 10) [] [jose; vera] [engineering] []).
  reflexivity.
Defined.

(** Bob is suspended and is not among the users Alice is offered. *)
Lemma suspended_bob_is_never_suggested :
  In bob (users db) /\ User.suspendedAt bob <> None /\
  lookups db (input_of None) (state_of alice 0 10)
    = Fulfilled ([], [alice; gus; jose; root; vera], [design; engineering], []) /\
  (forall u, In u [alice; gus; jose; root; vera] -> User.suspendedAt u = None).
Proof.
  split; [simpl; tauto|]. split; [discriminate|]. split; [reflexivity|].
  apply (@no_suspended_user latin1 entities collaborators
           db (input_of None) (state_of alice 0 10)
           [] [alice; gus; jose; root; vera] [design; engineering] []).
  reflexivity.
Defined.

(** Gus, scoped to himself, still passes his own [id] condition. *)
Lemma guest_passes_own_scope :
  matches [("query", query_template (Some (of_ascii "gus")))]
    (assign (Attr "id" (Is (VText (User.id gus))))
       (userWhere_unscoped (signed_in gus (Some t1)) (Some (of_ascii "gus"))))
    gus = true.
Proof.
  apply (@actor_passes_own_scope latin1 entities collaborators
           db (input_of (Some "gus")) (state_of gus 0 10) _
           (assign (Attr "id" (OpIn []))
              (groupWhere_unscoped (signed_in gus (Some t1)) (Some (of_ascii "gus"))))
           gus).
  - reflexivity.
  - reflexivity.
  - reflexivity.
Defined.

(** C6 fails as stated: the query ["_"] is no substring of ["Design"],
    yet the group filter accepts Design, and the lookup returns it; [_]
    is read as "any one character". *)
Lemma underscore_query_is_a_wildcard :
  eval_item [("query", query_template (Some (of_ascii "_")))] design group_text_filter
    = true /\
  substringb (normalize (of_ascii "_")) (normalize (Group.name design)) = false /\
  lookups db (input_of (Some "_")) (state_of alice 0 10)
    = Fulfilled ([], [alice; gus; jose; root; vera], [design; engineering], []).
Proof.
  repeat split; reflexivity.
Qed.

(** For the query ["ENG"] the group filter is the substring search. *)
Lemma plain_query_is_a_substring_search :
  Forall (fun c => is_meta c = false) (normalize (of_ascii "ENG")) /\
  eval_item [("query", query_template (Some (of_ascii "ENG")))] engineering
    group_text_filter
  = substringb (normalize (of_ascii "ENG")) (normalize (Group.name engineering)) /\
  substringb (normalize (of_ascii "ENG")) (normalize (Group.name engineering)) = true.
Proof.
  assert (Hplain : Forall (fun c => is_meta c = false) (normalize (of_ascii "ENG")))
    by (repeat constructor).
  split; [exact Hplain|]. split; [|reflexivity].
  apply (proj1 (proj2 (proj2
    (@text_filter_is_normalized_substring_search latin1
       (signed_in alice (Some t1)) (Some (of_ascii "ENG")))))
    (of_ascii "ENG") eq_refl); [|exact Hplain].
  simpl. intuition discriminate.
Defined.

(** C7 fails as stated: no name or address of Alice or of Design has a
    percent sign in it, yet the query ["%"] returns them, as it returns
    every user and group in scope. *)
Lemma percent_query_is_a_wildcard :
  substringb (normalize (of_ascii "%")) (normalize (User.name alice)) = false /\
  substringb (normalize (of_ascii "%")) (normalize (of_ascii "alice@example.com")) = false /\
  substringb (normalize (of_ascii "%")) (normalize (Group.name design)) = false /\
  lookups db (input_of (Some "%")) (state_of alice 0 10)
    = Fulfilled ([], [alice; gus; jose; root; vera], [design; engineering], []).
Proof.
  repeat split; reflexivity.
Qed.

(** With a page of two, the query ["%"] gives the first two users and
    groups by name, as no query does. *)
Lemma percent_query_is_bounded :
  lookups db (input_of (Some "%")) (state_of alice 0 2)
    = Fulfilled ([], [alice; gus], [design; engineering], []) /\
  List.length [alice; gus] <= 2 /\
  List.length [design; engineering] <= 2 /\
  lookups db (input_of None) (state_of alice 0 2)
    = Fulfilled ([], [alice; gus], [design; engineering], []).
Proof.
  split; [reflexivity|].
  destruct (@percent_query_matches_everything latin1 entities collaborators
              db (state_of alice 0 2) [] [alice; gus] [design; engineering] [] eq_refl)
    as (_ & _ & _ & Hu & Hg & Hsame).
  split; [exact Hu|]. split; [exact Hg|]. reflexivity.
Defined.

(** Over the failing connection the users query fails at tick 2 and the
    groups query at tick 5: the handler throws the error of the users
    query. *)
Lemma first_failure_is_thrown :
  lookupFailures flaky_db (input_of None) (state_of alice 0 10)
    (userWhere_unscoped (signed_in alice (Some t1)) None)
    (groupWhere_unscoped (signed_in alice (Some t1)) None)
  = [None; Some (2, "users: connection lost"); Some (5, "groups: timeout"); None] /\
  mention flaky_db
    {| input := input_of None; state := state_of alice 0 10; body := None |}
  = Rejected "users: connection lost" /\
  exists t e,
    In (Some (t, e))
       [None; Some (2, "users: connection lost"); Some (5, "groups: timeout"); None] /\
    (forall t' e',
       In (Some (t', e'))
          [None; Some (2, "users: connection lost"); Some (5, "groups: timeout"); None] ->
       t <= t') /\
    mention flaky_db
      {| input := input_of None; state := state_of alice 0 10; body := None |}
    = Rejected e.
Proof.
  split; [reflexivity|]. split; [reflexivity|].
  apply (@failed_lookup_fails_request latin1 entities collaborators flaky_db
           {| input := input_of None; state := state_of alice 0 10; body := None |}
           (userWhere_unscoped (signed_in alice (Some t1)) None)
           (groupWhere_unscoped (signed_in alice (Some t1)) None)).
  - reflexivity.
  - exists (2, "users: connection lost"). simpl. tauto.
Defined.

End Workspace.

(* ===================================================================== *)
(** ** Lemmas: pages, order and arrays of promises *)
(* ===================================================================== *)

Lemma NoDup_firstn {A} (n : nat) (l : list A) : NoDup l -> NoDup (firstn n l).
Proof.
  intros Hl. rewrite <- (firstn_skipn n l) in Hl. now apply NoDup_app_remove_r in Hl.
Qed.

Lemma NoDup_skipn {A} (n : nat) (l : list A) : NoDup l -> NoDup (skipn n l).
Proof.
  intros Hl. rewrite <- (firstn_skipn n l) in Hl. now apply NoDup_app_remove_l in Hl.
Qed.

(** Filtering the rows of a table keeps its key a key. *)
Lemma filter_keeps_key {Row Key : Type} (rows : list Row) (key_of : Row -> Key)
    (keep : Row -> bool) :
  NoDup (map key_of rows) -> NoDup (map key_of (filter keep rows)).
Proof.
  induction rows as [|r rows IH]; cbn; intros Hkeys; [constructor|].
  apply NoDup_cons_iff in Hkeys as [Hfresh Hkeys].
  destruct (keep r); cbn; [|now apply IH].
  apply NoDup_cons; [|now apply IH].
  rewrite in_map_iff. intros (r' & Hsame & Hkept).
  apply filter_In in Hkept as [Hin _].
  apply Hfresh. rewrite <- Hsame. now apply in_map.
Qed.

Lemma Sorted_skipn {A} (R : A -> A -> Prop) (n : nat) (l : list A) :
  Sorted R l -> Sorted R (skipn n l).
Proof.
  revert l. induction n as [|n IH]; intros [|a l] Hl; simpl; auto.
  apply IH. now inversion Hl.
Qed.

Lemma Sorted_firstn {A} (R : A -> A -> Prop) (n : nat) (l : list A) :
  Sorted R l -> Sorted R (firstn n l).
Proof.
  revert l. induction n as [|n IH]; intros [|a l] Hl; simpl; auto.
  inversion Hl as [|? ? Hs Hhd]; subst. constructor; [auto|].
  destruct n, l; simpl; auto. inversion Hhd; subst. now constructor.
Qed.

Lemma Sorted_weaken {A} (R R' : A -> A -> Prop) (l : list A) :
  (forall a b, R a b -> R' a b) -> Sorted R l -> Sorted R' l.
Proof.
  intros HR. induction 1 as [|a l Hs IH Hhd]; constructor; auto.
  destruct Hhd; constructor; auto.
Qed.

Section PageLemmas.
Context `{Collation} {R : Type} `{Model R}.

Lemma insert_row_perm (o : list (string * Direction)) (a : R) (l : list R) :
  Permutation (insert_row o a l) (a :: l).
Proof.
  induction l as [|b l IH]; simpl; [reflexivity|].
  destruct (row_leb o a b); [reflexivity|].
  rewrite IH. apply perm_swap.
Qed.

(** [ORDER BY] rearranges the rows and does nothing else to them. *)
Lemma sort_rows_perm (o : list (string * Direction)) (l : list R) :
  Permutation (sort_rows o l) l.
Proof.
  induction l as [|a l IH]; simpl; [reflexivity|].
  rewrite insert_row_perm. now constructor.
Qed.

Lemma insert_row_sorted (o : list (string * Direction)) (a : R) (l : list R) :
  (forall x y, row_leb o x y = true \/ row_leb o y x = true) ->
  Sorted (fun x y => row_leb o x y = true) l ->
  Sorted (fun x y => row_leb o x y = true) (insert_row o a l).
Proof.
  intros Htotal. induction l as [|b l IH]; simpl; intros Hl.
  - repeat constructor.
  - destruct (row_leb o a b) eqn:Hab.
    + constructor; [assumption|]. now constructor.
    + inversion Hl as [|? ? Hs Hhd]; subst.
      constructor; [auto|].
      assert (Hba : row_leb o b a = true)
        by (destruct (Htotal a b); congruence).
      destruct l as [|c l]; simpl; [now constructor|].
      destruct (row_leb o a c); constructor; trivial.
      now inversion Hhd.
Qed.

Lemma sort_rows_sorted (o : list (string * Direction)) (l : list R) :
  (forall x y, row_leb o x y = true \/ row_leb o y x = true) ->
  Sorted (fun x y => row_leb o x y = true) (sort_rows o l).
Proof.
  intros Htotal. induction l as [|a l IH]; simpl; [constructor|].
  now apply insert_row_sorted.
Qed.

(** A page comes out in the order asked for. *)
Lemma select_sorted (table : list R) (o : FindOptions) :
  (forall x y, row_leb (order o) x y = true \/ row_leb (order o) y x = true) ->
  Sorted (fun x y => row_leb (order o) x y = true) (select table o).
Proof.
  intros Htotal. unfold select.
  pose proof (@sort_rows_sorted (order o)
                (filter (matches (replacements o) (where_ o)) table) Htotal) as Hs.
  destruct (offset o), (limit o);
    repeat first [apply Sorted_firstn | apply Sorted_skipn]; assumption.
Qed.

(** A key of the table is a key of every page. *)
Lemma select_NoDup {B} (f : R -> B) (table : list R) (o : FindOptions) :
  NoDup (map f table) -> NoDup (map f (select table o)).
Proof.
  intros Hnd. unfold select.
  assert (Hs : NoDup (map f (sort_rows (order o)
                               (filter (matches (replacements o) (where_ o)) table)))).
  { eapply Permutation_NoDup;
      [apply Permutation_map; symmetry; apply sort_rows_perm|].
    now apply filter_keeps_key. }
  destruct (offset o), (limit o); rewrite <- ?firstn_map, <- ?skipn_map;
    repeat first [apply NoDup_firstn | apply NoDup_skipn]; assumption.
Qed.

(** [OFFSET n] leaves at most the rows of the table after the first [n]. *)
Lemma select_length_offset (table : list R) (o : FindOptions) (n : nat) :
  offset o = Some n -> List.length (select table o) <= List.length table - n.
Proof.
  unfold select. intros ->.
  assert (Hs : List.length (skipn n (sort_rows (order o)
                 (filter (matches (replacements o) (where_ o)) table)))
               <= List.length table - n).
  { rewrite length_skipn, (Permutation_length (sort_rows_perm _ _)).
    pose proof (filter_length_le (matches (replacements o) (where_ o)) table). lia. }
  destruct (limit o) as [m|]; [|assumption].
  rewrite length_firstn. lia.
Qed.

(** Without a window, [select] returns every matching row. *)
Lemma select_In_all (table : list R) (o : FindOptions) (r : R) :
  offset o = None -> limit o = None ->
  (In r (select table o) <-> In r table /\ matches (replacements o) (where_ o) r = true).
Proof.
  unfold select. intros -> ->. now rewrite sort_rows_In, filter_In.
Qed.

End PageLemmas.

Lemma rejection_then {A B} (f : A -> B) (p : Promise A) :
  rejection (then_ f p) = rejection p.
Proof.
  unfold rejection, then_. simpl. now destruct (outcome p).
Qed.

(** [Promise.all] over an array is fulfilled with the values of its
    promises, in their order, exactly when all of them are. *)
Lemma Promise_all_fulfilled {A} (ps : list (Promise A)) (l : list A) :
  outcome (Promise_all ps) = Fulfilled l <->
  Forall2 (fun p a => outcome p = Fulfilled a) ps l.
Proof.
  revert l. induction ps as [|p ps IH]; intro l; simpl.
  - split.
    + intros [= <-]. constructor.
    + intros Hl. now inversion Hl.
  - destruct (outcome (both p (Promise_all ps))) as [[a l']|e] eqn:Hb.
    + apply both_fulfilled in Hb as [Hp Hps]. apply IH in Hps. split.
      * intros [= <-]. now constructor.
      * intros Hl. inversion Hl as [|? b ? l'' Hpb Hrest]; subst.
        apply IH in Hrest. apply IH in Hps. congruence.
    + split; [discriminate|].
      intros Hl. inversion Hl as [|? b ? l'' Hpb Hrest]; subst.
      apply IH in Hrest.
      assert (Hboth : outcome (both p (Promise_all ps)) = Fulfilled (b, l''))
        by now apply both_fulfilled.
      congruence.
Qed.

(** ... and fails as the first of its promises to fail does. *)
Lemma Promise_all_rejected {A} (ps : list (Promise A)) :
  (rejection (Promise_all ps) = None /\ forall p, In p ps -> rejection p = None) \/
  exists t e,
    rejection (Promise_all ps) = Some (t, e) /\
    In (Some (t, e)) (map rejection ps) /\
    (forall t' e', In (Some (t', e')) (map rejection ps) -> t <= t').
Proof.
  induction ps as [|p ps IH].
  - left. split; [reflexivity|]. intros p [].
  - change (Promise_all (p :: ps))
      with (then_ (fun '(a, l) => a :: l) (both p (Promise_all ps))).
    rewrite rejection_then, rejection_both.
    destruct (earlier_spec (rejection p) (rejection (Promise_all ps)))
      as [(Hp & Hps & He) | (t & e & He & Hpick & Hle)].
    + left. split; [assumption|].
      destruct IH as [[_ Hall] | (t & e & Hr & _)]; [|congruence].
      intros q [<-|Hq]; auto.
    + right. exists t, e. split; [assumption|]. simpl.
      destruct IH as [[Hnone Hall] | (t0 & e0 & Hr & Hin & Hmin)].
      * destruct Hpick as [Hpick|Hpick]; [|congruence]. split; [now left|].
        intros t' e' [Hq|Hq]; [apply (Hle t' e'); now left|].
        apply in_map_iff in Hq as (q & Hq & Hqin). rewrite (Hall q Hqin) in Hq.
        discriminate.
      * split.
        -- destruct Hpick as [Hpick|Hpick]; [now left|].
           right. rewrite Hr in Hpick. now inversion Hpick; subst.
        -- intros t' e' [Hq|Hq]; [apply (Hle t' e'); now left|].
           specialize (Hmin t' e' Hq).
           specialize (Hle t0 e0 (or_intror Hr)). lia.
Qed.

Lemma findAll_up `{Collation} {R : Type} `{Model R}
    (db : Database) (tb : Table) (rows : list R) (o : FindOptions) :
  outcome (query_status db tb) = Fulfilled tt ->
  outcome (findAll db tb rows o) = Fulfilled (select rows o).
Proof.
  unfold findAll, then_. simpl. now intros ->.
Qed.

Lemma findAll_down `{Collation} {R : Type} `{Model R}
    (db : Database) (tb : Table) (rows : list R) (o : FindOptions) (e : Error) :
  outcome (query_status db tb) = Rejected e ->
  outcome (findAll db tb rows o) = Rejected e.
Proof.
  unfold findAll, then_. simpl. now intros ->.
Qed.

(** An array of promises that all get fulfilled is fulfilled as a whole. *)
Lemma Promise_all_map_fulfilled {A B} (f : A -> Promise B) (xs : list A) :
  (forall x, In x xs -> exists y, outcome (f x) = Fulfilled y) ->
  exists l, outcome (Promise_all (map f xs)) = Fulfilled l.
Proof.
  intros Hf.
  assert (Hl : exists l, Forall2 (fun p a => outcome p = Fulfilled a) (map f xs) l).
  { induction xs as [|x xs IH]; [exists []; constructor|].
    destruct (Hf x (or_introl eq_refl)) as [y Hy].
    destruct IH as [l Hl]; [intros; apply Hf; now right|].
    exists (y :: l). now constructor. }
  destruct Hl as [l Hl]. exists l. now apply Promise_all_fulfilled.
Qed.

(* ===================================================================== *)
(** ** More properties of the endpoint *)
(* ===================================================================== *)

Section MoreHandlerLemmas.
Context `{Collation} {E : Entities} {K : @Collaborators E}.

Lemma userWhere_unscoped_team (rs : list (string * text))
    (actor : User.t) (query : option text) (u : User.t) :
  matches rs (userWhere_unscoped actor query) u = true ->
  User.teamId u = User.teamId actor.
Proof.
  rewrite userWhere_unscoped_eq. simpl. intros Hm.
  apply andb_true_iff in Hm as [Hm _]. now apply text_eqb_eq.
Qed.

Lemma groupWhere_unscoped_team (rs : list (string * text))
    (actor : User.t) (query : option text) (g : Group.t) :
  matches rs (groupWhere_unscoped actor query) g = true ->
  Group.teamId g = User.teamId actor.
Proof.
  rewrite groupWhere_unscoped_eq. simpl. intros Hm.
  apply andb_true_iff in Hm as [Hm _]. now apply text_eqb_eq.
Qed.

(** Two requests of one actor whose unscoped [where] objects accept the
    same rows get the same users and groups: the scope is the same. *)
Lemma lookups_same_rows (db : Database) (i i' : APIInput) (s : APIState)
    d us gs cs d' us' gs' cs' :
  lookups db i s = Fulfilled (d, us, gs, cs) ->
  lookups db i' s = Fulfilled (d', us', gs', cs') ->
  (forall u : User.t,
     matches [("query", query_template (input_query i))]
       (userWhere_unscoped (state_auth_user s) (input_query i)) u
     = matches [("query", query_template (input_query i'))]
         (userWhere_unscoped (state_auth_user s) (input_query i')) u) ->
  (forall g : Group.t,
     matches [("query", query_template (input_query i))]
       (groupWhere_unscoped (state_auth_user s) (input_query i)) g
     = matches [("query", query_template (input_query i'))]
         (groupWhere_unscoped (state_auth_user s) (input_query i')) g) ->
  us = us' /\ gs = gs'.
Proof.
  intros Hl Hl' Hu Hg.
  apply lookups_inv in Hl as (uc & gc & Hsc & -> & ->).
  unfold lookups in Hl'. rewrite (buildWhere_intro i' s Hsc) in Hl'. simpl in Hl'.
  unfold await, fanOut in Hl'.
  apply Promise_all4_fulfilled in Hl' as (_ & Hu' & Hg' & _).
  apply findAll_fulfilled in Hu'. apply findAll_fulfilled in Hg'. subst us' gs'.
  split; apply select_ext; trivial; intro r;
    unfold lookupOptions; cbn [replacements where_].
  - now rewrite !matches_with_id_user, Hu.
  - now rewrite !matches_with_id_group, Hg.
Qed.

(** What the response holds when the handler succeeds. *)
Lemma respond_fulfilled (i : APIInput) (s : APIState)
    d us gs cs (env : Envelope) :
  respond i s (d, us, gs, cs) = Fulfilled env <->
  exists docs' groups',
    Forall2 (fun doc p => outcome (presentDocument i s doc) = Fulfilled p) d docs' /\
    Forall2 (fun g p => outcome (presentGroup g) = Fulfilled p) gs groups' /\
    env = {| pagination := state_pagination s;
             data := {| data_documents := docs';
                        data_users :=
                          map (fun user =>
                                 presentUser user
                                   (can (state_auth_user s) "readEmail" user)
                                   (can (state_auth_user s) "readDetails" user)) us;
                        data_groups := groups';
                        data_collections := cs |} |}.
Proof.
  unfold respond, await, bind.
  assert (Hmap : forall {A B} (f : A -> Promise B) xs l,
             Forall2 (fun p a => outcome p = Fulfilled a) (map f xs) l <->
             Forall2 (fun x a => outcome (f x) = Fulfilled a) xs l).
  { intros A B f xs. induction xs as [|x xs IH]; intro l; simpl.
    - split; intros Hl; inversion Hl; constructor.
    - split; intros Hl; inversion Hl; subst; constructor; trivial; now apply IH. }
  split.
  - destruct (outcome (Promise_all (map (presentDocument i s) d))) as [docs'|e] eqn:Hd;
      [|discriminate].
    destruct (outcome (Promise_all (map presentGroup gs))) as [groups'|e] eqn:Hg;
      [|discriminate].
    intros [= <-]. exists docs', groups'.
    apply Promise_all_fulfilled in Hd. apply (proj1 (Hmap _ _ _ _ _)) in Hd.
    apply Promise_all_fulfilled in Hg. apply (proj1 (Hmap _ _ _ _ _)) in Hg.
    now repeat split.
  - intros (docs' & groups' & Hd & Hg & ->).
    apply (proj2 (Hmap _ _ _ _ _)), Promise_all_fulfilled in Hd.
    apply (proj2 (Hmap _ _ _ _ _)), Promise_all_fulfilled in Hg.
    now rewrite Hd, Hg.
Qed.

End MoreHandlerLemmas.

Section MoreProperties.
Context `{Collation} {E : Entities} {K : @Collaborators E}.

(** X1. Every user and every group the lookup returns belongs to the
    actor's team, whatever the query and the scope. *)
Theorem results_stay_in_actor_team
    (db : Database) (i : APIInput) (s : APIState) d us gs cs :
  lookups db i s = Fulfilled (d, us, gs, cs) ->
  (forall u, In u us -> User.teamId u = User.teamId (state_auth_user s)) /\
  (forall g, In g gs -> Group.teamId g = User.teamId (state_auth_user s)).
Proof.
  intros Hl. apply lookups_inv in Hl as (uc & gc & _ & -> & ->). split.
  - intros u Hu. selected Hu Hm. rewrite matches_with_id_user in Hm.
    apply andb_true_iff in Hm as [Hm _]. eapply userWhere_unscoped_team, Hm.
  - intros g Hg. selected Hg Hm. rewrite matches_with_id_group in Hm.
    apply andb_true_iff in Hm as [Hm _]. eapply groupWhere_unscoped_team, Hm.
Qed.

(** X2. The users and groups returned are rows of the tables, and when
    ids are unique in a table no id is returned twice. *)
Theorem results_are_distinct_rows
    (db : Database) (i : APIInput) (s : APIState) d us gs cs :
  lookups db i s = Fulfilled (d, us, gs, cs) ->
  (forall u, In u us -> In u (users db)) /\
  (forall g, In g gs -> In g (groups db)) /\
  (NoDup (map User.id (users db)) -> NoDup (map User.id us)) /\
  (NoDup (map Group.id (groups db)) -> NoDup (map Group.id gs)).
Proof.
  intros Hl. apply lookups_inv in Hl as (uc & gc & _ & -> & ->).
  split; [|split; [|split]].
  - intros u Hu. now apply select_In in Hu.
  - intros g Hg. now apply select_In in Hg.
  - apply select_NoDup.
  - apply select_NoDup.
Qed.

(** X3. A page holds at most [limit] users and at most the users of the
    table past the first [offset]; the same for groups.  An offset beyond
    the table gives an empty page. *)
Theorem page_is_bounded_by_limit_and_offset
    (db : Database) (i : APIInput) (s : APIState) d us gs cs :
  lookups db i s = Fulfilled (d, us, gs, cs) ->
  List.length us <= Pagination.limit (state_pagination s) /\
  List.length us <= List.length (users db) - Pagination.offset (state_pagination s) /\
  List.length gs <= Pagination.limit (state_pagination s) /\
  List.length gs <= List.length (groups db) - Pagination.offset (state_pagination s).
Proof.
  intros Hl. apply lookups_inv in Hl as (uc & gc & _ & -> & ->).
  repeat split;
    first [now apply select_length | now apply select_length_offset].
Qed.

(** X4. When the collation compares any two names one way or the other,
    the users and the groups come back in ascending order of name. *)
Theorem results_are_ordered_by_name
    (db : Database) (i : APIInput) (s : APIState) d us gs cs :
  (forall x y, collate_leb x y = true \/ collate_leb y x = true) ->
  lookups db i s = Fulfilled (d, us, gs, cs) ->
  Sorted (fun a b => collate_leb (User.name a) (User.name b) = true) us /\
  Sorted (fun a b => collate_leb (Group.name a) (Group.name b) = true) gs.
Proof.
  intros Htotal Hl. apply lookups_inv in Hl as (uc & gc & _ & -> & ->). split.
  - eapply Sorted_weaken; [|apply select_sorted].
    + unfold lookupOptions. cbn. intros a b Hab.
      now rewrite orb_true_r, andb_true_r in Hab.
    + unfold lookupOptions. cbn. intros x y.
      rewrite !orb_true_r, !andb_true_r. apply Htotal.
  - eapply Sorted_weaken; [|apply select_sorted].
    + unfold lookupOptions. cbn. intros a b Hab.
      now rewrite orb_true_r, andb_true_r in Hab.
    + unfold lookupOptions. cbn. intros x y.
      rewrite !orb_true_r, !andb_true_r. apply Htotal.
Qed.

(** X5. Two non-empty queries with the same normalized form, such as the
    same word in another case or with other accents, return the same users
    and the same groups. *)
Theorem same_normalized_query_same_results
    (db : Database) (s : APIState) (q q' : text) d us gs cs d' us' gs' cs' :
  normalize q = normalize q' ->
  q <> [] -> q' <> [] ->
  lookups db {| input_query := Some q |} s = Fulfilled (d, us, gs, cs) ->
  lookups db {| input_query := Some q' |} s = Fulfilled (d', us', gs', cs') ->
  us = us' /\ gs = gs'.
Proof.
  intros Hn Hq Hq' Hl Hl'.
  assert (Ht : query_truthy (Some q) = true) by (destruct q; [congruence|reflexivity]).
  assert (Ht' : query_truthy (Some q') = true) by (destruct q'; [congruence|reflexivity]).
  assert (Hp : normalize (escape (query_template (Some q)))
               = normalize (escape (query_template (Some q')))).
  { rewrite !normalize_escape. unfold query_template.
    now rewrite !normalize_template, Hn. }
  eapply lookups_same_rows; [exact Hl | exact Hl' | |]; intro r; cbn [input_query];
    rewrite ?userWhere_unscoped_eq, ?groupWhere_unscoped_eq, Ht, Ht';
    unfold matches; cbn [app forallb];
    unfold user_text_filter, group_text_filter, email_like, name_like;
    cbn [eval_item eval_clause existsb];
    rewrite !eval_like_column, Hp; reflexivity.
Qed.

(** X6. An empty query string is no query: it returns the users and
    groups the request returns without a query. *)
Theorem empty_query_is_no_query
    (db : Database) (s : APIState) d us gs cs d' us' gs' cs' :
  lookups db {| input_query := Some [] |} s = Fulfilled (d, us, gs, cs) ->
  lookups db {| input_query := None |} s = Fulfilled (d', us', gs', cs') ->
  us = us' /\ gs = gs'.
Proof.
  intros Hl Hl'.
  eapply lookups_same_rows; [exact Hl | exact Hl' | |]; intro r; reflexivity.
Qed.

(** X7. For a restricted actor with a non-empty group set [G], the user
    predicate accepts exactly the rows that pass the base and text filters
    and are the actor or a member of a group of [G]; the group predicate
    accepts exactly the rows that pass the base and text filters and are
    in [G]. *)
Theorem restricted_predicates_are_exact
    (db : Database) (i : APIInput) (s : APIState) (G : list text)
    (uw gw : WhereOptions) (rs : list (string * text)) :
  restrictDirectory (state_auth_user s) = true ->
  outcome (groupIds (state_auth_user s)) = Fulfilled G ->
  G <> [] ->
  buildWhere db i s = Fulfilled (uw, gw) ->
  (forall u : User.t,
     matches rs uw u = true <->
     matches rs (userWhere_unscoped (state_auth_user s) (input_query i)) u = true /\
     (User.id u = User.id (state_auth_user s) \/
      exists gu, In gu (groupUsers db) /\
                 In (GroupUser.groupId gu) G /\
                 GroupUser.userId gu = User.id u)) /\
  (forall g : Group.t,
     matches rs gw g = true <->
     matches rs (groupWhere_unscoped (state_auth_user s) (input_query i)) g = true /\
     In (Group.id g) G).
Proof.
  intros Hr HG HGne Hb.
  apply buildWhere_inv in Hb as (uc & gc & Hsc & -> & ->).
  destruct Hsc as [Hr' | G' _ HG' _ _ | _ HG']; [congruence| |congruence].
  assert (G' = G) by congruence. subst G'. clear HG'.
  split.
  - intro u. rewrite matches_with_id_user, andb_true_iff.
    cbn [eval_cond]. rewrite existsb_text_In, in_app_iff, new_Set_In, in_map_iff.
    simpl.
    assert (Hmem : (exists gu, GroupUser.userId gu = User.id u /\
                      In gu (select (groupUsers db) (membershipOptions G))) <->
                   (exists gu, In gu (groupUsers db) /\
                      In (GroupUser.groupId gu) G /\
                      GroupUser.userId gu = User.id u)).
    { split; intros (gu & Hgu).
      - destruct Hgu as [Hid Hsel].
        apply select_In_all in Hsel as [Hin Hm]; try reflexivity.
        simpl in Hm. rewrite andb_true_r in Hm. apply existsb_text_In in Hm.
        now exists gu.
      - destruct Hgu as (Hin & HinG & Hid). exists gu. split; [assumption|].
        apply select_In_all; try reflexivity. split; [assumption|].
        simpl. rewrite andb_true_r. now apply existsb_text_In. }
    rewrite Hmem. intuition.
  - intro g. rewrite matches_with_id_group, andb_true_iff.
    cbn [eval_cond]. now rewrite existsb_text_In.
Qed.

(** X8. For a restricted actor, a failing [groupIds] lookup fails the
    request with its error, before any of the four lookups counts. *)
Theorem groupIds_failure_fails_request
    (db : Database) (ctx : APIContext) (e : Error) :
  restrictDirectory (state_auth_user (state ctx)) = true ->
  outcome (groupIds (state_auth_user (state ctx))) = Rejected e ->
  mention db ctx = Rejected e.
Proof.
  intros Hr HG. unfold mention, lookups, buildWhere, await.
  rewrite Hr, HG. reflexivity.
Qed.

(** X9. For a restricted actor in at least one group, a failing
    membership query fails the request with its error. *)
Theorem membership_failure_fails_request
    (db : Database) (ctx : APIContext) (G : list text) (e : Error) :
  restrictDirectory (state_auth_user (state ctx)) = true ->
  outcome (groupIds (state_auth_user (state ctx))) = Fulfilled G ->
  G <> [] ->
  outcome (query_status db GroupUsers) = Rejected e ->
  mention db ctx = Rejected e.
Proof.
  intros Hr HG HGne Hq. unfold mention, lookups, buildWhere, await.
  rewrite Hr, HG. destruct G as [|g G]; [congruence|].
  cbn [bind andb List.length Nat.ltb Nat.leb]. unfold GroupUser_findAll.
  rewrite (findAll_down _ _ _ _ Hq). reflexivity.
Qed.

(** X10. The membership table is read only for a restricted actor with
    groups: for an unrestricted actor, or a restricted one in no group, two
    databases that agree on users, groups and the state of those two
    queries give the same outcome, whatever their memberships and the
    state of the membership query. *)
Theorem memberships_unread_outside_group_scope
    (db db' : Database) (ctx : APIContext) :
  restrictDirectory (state_auth_user (state ctx)) = false \/
  outcome (groupIds (state_auth_user (state ctx))) = Fulfilled [] ->
  users db = users db' ->
  groups db = groups db' ->
  query_status db Users = query_status db' Users ->
  query_status db Groups = query_status db' Groups ->
  mention db ctx = mention db' ctx.
Proof.
  intros Hscope Hu Hg Hqu Hqg.
  assert (Hl : lookups db (input ctx) (state ctx) = lookups db' (input ctx) (state ctx)).
  { unfold lookups, buildWhere, await.
    destruct (restrictDirectory (state_auth_user (state ctx))) eqn:Hr.
    - destruct Hscope as [Hf|HG]; [discriminate|]. rewrite HG. simpl.
      unfold fanOut, usersLookup, groupsLookup, User_findAll, Group_findAll, findAll.
      now rewrite Hu, Hg, Hqu, Hqg.
    - simpl.
      unfold fanOut, usersLookup, groupsLookup, User_findAll, Group_findAll, findAll.
      now rewrite Hu, Hg, Hqu, Hqg. }
  unfold mention. now rewrite Hl.
Qed.

(** X11. A successful response leaves the request as it was and holds:
    the pagination of the request, unchanged; the collections as the
    search returned them; each user presented with the actor's
    [readEmail] and [readDetails] rights; the documents and groups
    presented one by one; all in the order of the lookups. *)
Theorem response_presents_lookups_in_order
    (db : Database) (ctx ctx' : APIContext) :
  mention db ctx = Fulfilled ctx' ->
  input ctx' = input ctx /\ state ctx' = state ctx /\
  exists d us gs cs env,
    lookups db (input ctx) (state ctx) = Fulfilled (d, us, gs, cs) /\
    body ctx' = Some env /\
    pagination env = state_pagination (state ctx) /\
    data_collections (data env) = cs /\
    data_users (data env) =
      map (fun user =>
             presentUser user
               (can (state_auth_user (state ctx)) "readEmail" user)
               (can (state_auth_user (state ctx)) "readDetails" user)) us /\
    Forall2 (fun doc p => outcome (presentDocument (input ctx) (state ctx) doc) = Fulfilled p)
      d (data_documents (data env)) /\
    Forall2 (fun g p => outcome (presentGroup g) = Fulfilled p)
      gs (data_groups (data env)).
Proof.
  unfold mention.
  destruct (lookups db (input ctx) (state ctx)) as [[[[d us] gs] cs]|e] eqn:Hl;
    cbn [bind]; [|discriminate].
  destruct (respond (input ctx) (state ctx) (d, us, gs, cs)) as [env|e] eqn:Hr;
    cbn [bind]; [|discriminate].
  intros [= <-]. simpl. split; [reflexivity|]. split; [reflexivity|].
  apply respond_fulfilled in Hr as (docs' & groups' & Hd & Hg & ->).
  exists d, us, gs, cs. eexists. repeat split; simpl; assumption.
Qed.

(** X12. When the lookups succeed and a document cannot be presented,
    the request fails with the error of the presentation that failed
    first. *)
Theorem presentDocument_failure_fails_request
    (db : Database) (ctx : APIContext) d us gs cs :
  lookups db (input ctx) (state ctx) = Fulfilled (d, us, gs, cs) ->
  (exists doc, In doc d /\
     rejection (presentDocument (input ctx) (state ctx) doc) <> None) ->
  exists t e,
    mention db ctx = Rejected e /\
    In (Some (t, e))
       (map (fun doc => rejection (presentDocument (input ctx) (state ctx) doc)) d) /\
    (forall t' e',
       In (Some (t', e'))
          (map (fun doc => rejection (presentDocument (input ctx) (state ctx) doc)) d) ->
       t <= t').
Proof.
  intros Hl (doc & Hdoc & Hrej).
  destruct (Promise_all_rejected (map (presentDocument (input ctx) (state ctx)) d))
    as [[_ Hall] | (t & e & Hr & Hin & Hmin)].
  - exfalso. apply Hrej, Hall. now apply in_map.
  - rewrite map_map in Hin, Hmin. exists t, e. split; [|split; assumption].
    apply rejection_outcome in Hr.
    unfold mention. rewrite Hl. simpl. unfold await. now rewrite Hr.
Qed.

(** X13. When every document is presented and a group cannot be, the
    request fails with the error of the group presentation that failed
    first. *)
Theorem presentGroup_failure_fails_request
    (db : Database) (ctx : APIContext) d us gs cs :
  lookups db (input ctx) (state ctx) = Fulfilled (d, us, gs, cs) ->
  (forall doc, In doc d ->
     exists p, outcome (presentDocument (input ctx) (state ctx) doc) = Fulfilled p) ->
  (exists g, In g gs /\ rejection (presentGroup g) <> None) ->
  exists t e,
    mention db ctx = Rejected e /\
    In (Some (t, e)) (map (fun g => rejection (presentGroup g)) gs) /\
    (forall t' e',
       In (Some (t', e')) (map (fun g => rejection (presentGroup g)) gs) -> t <= t').
Proof.
  intros Hl Hdocs (g & Hg & Hrej).
  destruct (Promise_all_map_fulfilled (presentDocument (input ctx) (state ctx)) d Hdocs)
    as [docs' Hd].
  destruct (Promise_all_rejected (map presentGroup gs))
    as [[_ Hall] | (t & e & Hr & Hin & Hmin)].
  - exfalso. apply Hrej, Hall. now apply in_map.
  - rewrite map_map in Hin, Hmin. exists t, e. split; [|split; assumption].
    apply rejection_outcome in Hr.
    unfold mention. rewrite Hl. simpl. unfold await. now rewrite Hd, Hr.
Qed.

(** X14. The handler raises no error of its own: when the [groupIds]
    lookup (for a restricted actor), the database queries, the two
    searches and the presentations all succeed, the request succeeds and
    a body is set. *)
Theorem mention_succeeds_when_collaborators_do
    (db : Database) (ctx : APIContext) :
  (restrictDirectory (state_auth_user (state ctx)) = true ->
     exists G, outcome (groupIds (state_auth_user (state ctx))) = Fulfilled G) ->
  (forall tb, outcome (query_status db tb) = Fulfilled tt) ->
  (forall a o, exists l, outcome (searchTitlesForUser a o) = Fulfilled l) ->
  (forall a o, exists l, outcome (searchCollectionsForUser a o) = Fulfilled l) ->
  (forall doc, exists p,
     outcome (presentDocument (input ctx) (state ctx) doc) = Fulfilled p) ->
  (forall g, exists p, outcome (presentGroup g) = Fulfilled p) ->
  exists env,
    mention db ctx
    = Fulfilled {| input := input ctx; state := state ctx; body := Some env |}.
Proof.
  intros HG Hdb Hdocs Hcols Hpd Hpg.
  assert (Hb : exists uw gw,
             buildWhere db (input ctx) (state ctx) = Fulfilled (uw, gw)).
  { unfold buildWhere, await.
    destruct (restrictDirectory (state_auth_user (state ctx))) eqn:Hr.
    - destruct (HG eq_refl) as [G ->]. destruct G as [|g G].
      + eexists _, _. reflexivity.
      + cbn [bind andb List.length Nat.ltb Nat.leb]. unfold GroupUser_findAll.
        rewrite (findAll_up _ _ _ _ (Hdb GroupUsers)).
        eexists _, _. reflexivity.
    - eexists _, _. reflexivity. }
  destruct Hb as (uw & gw & Hb).
  destruct (Hdocs (state_auth_user (state ctx))
              {| SearchOptions.query := input_query (input ctx);
                 SearchOptions.offset := Pagination.offset (state_pagination (state ctx));
                 SearchOptions.limit := Pagination.limit (state_pagination (state ctx));
                 SearchOptions.statusFilter := Some [Published] |}) as [d Hd].
  destruct (Hcols (state_auth_user (state ctx))
              {| SearchOptions.query := input_query (input ctx);
                 SearchOptions.offset := Pagination.offset (state_pagination (state ctx));
                 SearchOptions.limit := Pagination.limit (state_pagination (state ctx));
                 SearchOptions.statusFilter := None |}) as [cs Hcs].
  assert (Hf : outcome (fanOut db (input ctx) (state ctx) uw gw)
               = Fulfilled (d,
                            select (users db) (lookupOptions (input ctx) (state ctx) uw),
                            select (groups db) (lookupOptions (input ctx) (state ctx) gw),
                            cs)).
  { unfold fanOut. apply Promise_all4_fulfilled. repeat split; trivial.
    - apply findAll_up, Hdb.
    - apply findAll_up, Hdb. }
  destruct (Promise_all_map_fulfilled (presentDocument (input ctx) (state ctx)) d
              (fun doc _ => Hpd doc)) as [docs' Hd'].
  destruct (Promise_all_map_fulfilled presentGroup
              (select (groups db) (lookupOptions (input ctx) (state ctx) gw))
              (fun g _ => Hpg g)) as [groups' Hg'].
  eexists. unfold mention, lookups. rewrite Hb. simpl. unfold await. rewrite Hf. simpl.
  unfold await. rewrite Hd'. simpl. rewrite Hg'. simpl. reflexivity.
Qed.

End MoreProperties.

(* ===================================================================== *)
(** ** More of the small workspace *)
(* ===================================================================== *)

(** Comparing by code point orders any two texts one way or the other. *)
Lemma codepoint_leb_total (x y : text) :
  codepoint_leb x y = true \/ codepoint_leb y x = true.
Proof.
  revert y. induction x as [|a x IH]; intros [|b y]; simpl; auto.
  destruct (N.ltb_spec a b) as [Hab|Hab]; [now left|].
  destruct (N.ltb_spec b a) as [Hba|Hba]; [now right|].
  assert (a = b) by lia. subst b. rewrite N.eqb_refl. simpl. apply IH.
Qed.

Section MoreWorkspace.
Import Example.
#[local] Existing Instance latin1.
#[local] Existing Instance entities.

(** Zed and Sales are of the other team and are not offered to Alice. *)
Lemma other_team_is_not_suggested :
  In zed (users two_team_db) /\ In sales (groups two_team_db) /\
  @lookups latin1 entities collaborators two_team_db (input_of None) (state_of alice 0 10)
    = Fulfilled ([], [alice; gus; jose; root; vera], [design; engineering], []) /\
  (forall u, In u [alice; gus; jose; root; vera] -> User.teamId u = of_ascii "t1") /\
  (forall g, In g [design; engineering] -> Group.teamId g = of_ascii "t1").
Proof.
  split; [simpl; tauto|]. split; [simpl; tauto|]. split; [reflexivity|].
  apply (@results_stay_in_actor_team latin1 entities collaborators
           two_team_db (input_of None) (state_of alice 0 10)
           [] [alice; gus; jose; root; vera] [design; engineering] []).
  reflexivity.
Defined.

Lemma workspace_ids_are_unique :
  NoDup (map User.id (users db)) /\ NoDup (map Group.id (groups db)).
Proof.
  split; simpl; repeat constructor; simpl; intuition discriminate.
Qed.

(** No id comes twice in Alice's suggestions. *)
Lemma suggestions_are_distinct :
  NoDup (map User.id [alice; gus; jose; root; vera]) /\
  NoDup (map Group.id [design; engineering]).
Proof.
  destruct (@results_are_distinct_rows latin1 entities collaborators
              db (input_of None) (state_of alice 0 10)
              [] [alice; gus; jose; root; vera] [design; engineering] [] eq_refl)
    as (_ & _ & Hu & Hg).
  split; [apply Hu | apply Hg]; apply workspace_ids_are_unique.
Defined.

(** From offset 4 a page of three holds the one user left past the first
    four that match, and no group. *)
Lemma last_page_is_short :
  @lookups latin1 entities collaborators db (input_of None) (state_of alice 4 3)
    = Fulfilled ([], [vera], [], []) /\
  List.length [vera] <= 3 /\
  List.length [vera] <= List.length (users db) - 4 /\
  List.length (@nil Group.t) <= 3 /\
  List.length (@nil Group.t) <= List.length (groups db) - 4.
Proof.
  split; [reflexivity|].
  apply (@page_is_bounded_by_limit_and_offset latin1 entities collaborators
           db (input_of None) (state_of alice 4 3) [] [vera] [] []).
  reflexivity.
Defined.

(** Alice's suggestions are in the order of their names. *)
Lemma suggestions_are_in_name_order :
  Sorted (fun a b => codepoint_leb (User.name a) (User.name b) = true)
    [alice; gus; jose; root; vera] /\
  Sorted (fun a b => codepoint_leb (Group.name a) (Group.name b) = true)
    [design; engineering].
Proof.
  apply (@results_are_ordered_by_name latin1 entities collaborators
           db (input_of None) (state_of alice 0 10)
           [] [alice; gus; jose; root; vera] [design; engineering] []).
  - apply codepoint_leb_total.
  - reflexivity.
Defined.

(** ["JOSE"] and ["josé"] find the same user. *)
Lemma case_and_accents_do_not_matter :
  normalize (of_ascii "JOSE") = normalize (of_ascii "jos" ++ [233%N]) /\
  @lookups latin1 entities collaborators db
    {| input_query := Some (of_ascii "JOSE") |} (state_of alice 0 10)
    = Fulfilled ([], [jose], [], []) /\
  @lookups latin1 entities collaborators db
    {| input_query := Some (of_ascii "jos" ++ [233%N]) |} (state_of alice 0 10)
    = Fulfilled ([], [jose], [], []) /\
  [jose] = [jose] /\ @nil Group.t = [].
Proof.
  split; [reflexivity|]. split; [reflexivity|]. split; [reflexivity|].
  apply (@same_normalized_query_same_results latin1 entities collaborators
           db (state_of alice 0 10) (of_ascii "JOSE") (of_ascii "jos" ++ [233%N])
           [] [jose] [] [] [] [jose] [] []);
    try reflexivity; discriminate.
Defined.

(** The empty string finds what no query finds. *)
Lemma empty_string_is_no_query :
  @lookups latin1 entities collaborators db
    {| input_query := Some [] |} (state_of vera 0 10)
    = Fulfilled ([], [jose; vera], [engineering], []) /\
  @lookups latin1 entities collaborators db
    {| input_query := None |} (state_of vera 0 10)
    = Fulfilled ([], [jose; vera], [engineering], []) /\
  [jose; vera] = [jose; vera] /\ [engineering] = [engineering].
Proof.
  split; [reflexivity|]. split; [reflexivity|].
  apply (@empty_query_is_no_query latin1 entities collaborators
           db (state_of vera 0 10)
           [] [jose; vera] [engineering] [] [] [jose; vera] [engineering] []);
    reflexivity.
Defined.

(** Vera's predicates: Jose is accepted as a member of Engineering, Alice
    is in none of Vera's groups. *)
Lemma viewer_predicates_are_exact :
  (forall u : User.t,
     matches []
       (assign (Attr "id" (OpIn (map VText
          (new_Set (map GroupUser.userId
                      (select (groupUsers db)
                         (membershipOptions [Group.id engineering; Group.id board])))
           ++ [User.id vera]))))
          (userWhere_unscoped (signed_in vera (Some t1)) None)) u = true <->
     matches [] (userWhere_unscoped (signed_in vera (Some t1)) None) u = true /\
     (User.id u = User.id vera \/
      exists gu, In gu (groupUsers db) /\
                 In (GroupUser.groupId gu) [Group.id engineering; Group.id board] /\
                 GroupUser.userId gu = User.id u)) /\
  (forall g : Group.t,
     matches []
       (assign (Attr "id" (OpIn (map VText [Group.id engineering; Group.id board])))
          (groupWhere_unscoped (signed_in vera (Some t1)) None)) g = true <->
     matches [] (groupWhere_unscoped (signed_in vera (Some t1)) None) g = true /\
     In (Group.id g) [Group.id engineering; Group.id board]).
Proof.
  apply (@restricted_predicates_are_exact latin1 entities collaborators
           db (input_of None) (state_of vera 0 10)
           [Group.id engineering; Group.id board]).
  - reflexivity.
  - reflexivity.
  - discriminate.
  - reflexivity.
Defined.

(** Gus is restricted: when his group ids cannot be read the request
    fails. *)
Lemma guest_request_fails_without_groupIds :
  @mention latin1 entities without_groupIds db
    {| input := input_of None; state := state_of gus 0 10; body := None |}
  = Rejected "groupIds: unavailable".
Proof.
  apply (@groupIds_failure_fails_request latin1 entities without_groupIds); reflexivity.
Defined.

(** Vera has groups: when the memberships cannot be read the request
    fails. *)
Lemma viewer_request_fails_without_memberships :
  @mention latin1 entities collaborators memberships_down_db
    {| input := input_of None; state := state_of vera 0 10; body := None |}
  = Rejected "group_users: timeout".
Proof.
  apply (@membership_failure_fails_request latin1 entities collaborators
           memberships_down_db _ [Group.id engineering; Group.id board]);
    try reflexivity; discriminate.
Defined.

(** Alice is a Member and Gus has no group: neither request reads the
    memberships, so neither notices that they cannot be read. *)
Lemma member_and_groupless_guest_do_not_read_memberships :
  @mention latin1 entities collaborators db
    {| input := input_of None; state := state_of alice 0 10; body := None |}
  = @mention latin1 entities collaborators memberships_down_db
      {| input := input_of None; state := state_of alice 0 10; body := None |} /\
  @mention latin1 entities collaborators db
    {| input := input_of None; state := state_of gus 0 10; body := None |}
  = @mention latin1 entities collaborators memberships_down_db
      {| input := input_of None; state := state_of gus 0 10; body := None |}.
Proof.
  split.
  - apply (@memberships_unread_outside_group_scope latin1 entities collaborators);
      try reflexivity. left. reflexivity.
  - apply (@memberships_unread_outside_group_scope latin1 entities collaborators);
      try reflexivity. right. reflexivity.
Defined.

(** Alice's response over an index with two documents and two
    collections. *)
Lemma response_of_member :
  exists ctx',
    @mention latin1 entities with_presentable_documents db
      {| input := input_of (Some "ro"); state := state_of alice 0 2; body := None |}
    = Fulfilled ctx' /\
    body ctx'
    = Some {| pagination := {| Pagination.offset := 0; Pagination.limit := 2 |};
              data := {| data_documents := [of_ascii "doc:Roadmap"; of_ascii "doc:Notes"];
                         data_users := [(User.id root, false, false)];
                         data_groups := [];
                         data_collections := [of_ascii "Handbook"; of_ascii "Archive"] |} |} /\
    input ctx' = input_of (Some "ro") /\ state ctx' = state_of alice 0 2.
Proof.
  eexists. split; [reflexivity|]. split; [reflexivity|].
  destruct (@response_presents_lookups_in_order latin1 entities with_presentable_documents
              db {| input := input_of (Some "ro"); state := state_of alice 0 2;
                    body := None |} _ eq_refl) as (Hi & Hs & _).
  split; assumption.
Defined.

(** Presenting ["Notes"] fails before presenting ["Draft"] does: its error
    is the one thrown. *)
Lemma first_unpresentable_document_is_thrown :
  @mention latin1 entities with_documents db
    {| input := input_of None; state := state_of alice 0 10; body := None |}
  = Rejected "presentDocument: Notes" /\
  exists t e,
    @mention latin1 entities with_documents db
      {| input := input_of None; state := state_of alice 0 10; body := None |}
    = Rejected e /\
    In (Some (t, e))
       [None; Some (5, "presentDocument: Draft"); Some (2, "presentDocument: Notes")] /\
    (forall t' e',
       In (Some (t', e'))
          [None; Some (5, "presentDocument: Draft"); Some (2, "presentDocument: Notes")] ->
       t <= t').
Proof.
  split; [reflexivity|].
  apply (@presentDocument_failure_fails_request latin1 entities with_documents db
           {| input := input_of None; state := state_of alice 0 10; body := None |}
           [of_ascii "Roadmap"; of_ascii "Draft"; of_ascii "Notes"]
           [alice; gus; jose; root; vera] [design; engineering]
           [of_ascii "Handbook"; of_ascii "Archive"]).
  - reflexivity.
  - exists (of_ascii "Draft"). split; [simpl; tauto|discriminate].
Defined.

(** Engineering fails to be presented before Design does: its error is
    the one thrown. *)
Lemma first_unpresentable_group_is_thrown :
  @mention latin1 entities with_unpresentable_groups db
    {| input := input_of None; state := state_of alice 0 10; body := None |}
  = Rejected "presentGroup: Engineering" /\
  exists t e,
    @mention latin1 entities with_unpresentable_groups db
      {| input := input_of None; state := state_of alice 0 10; body := None |}
    = Rejected e /\
    In (Some (t, e))
       [Some (6, "presentGroup: Design"); Some (3, "presentGroup: Engineering")] /\
    (forall t' e',
       In (Some (t', e'))
          [Some (6, "presentGroup: Design"); Some (3, "presentGroup: Engineering")] ->
       t <= t').
Proof.
  split; [reflexivity|].
  apply (@presentGroup_failure_fails_request latin1 entities with_unpresentable_groups db
           {| input := input_of None; state := state_of alice 0 10; body := None |}
           [of_ascii "Roadmap"] [alice; gus; jose; root; vera] [design; engineering] []).
  - reflexivity.
  - intros doc _. eexists. reflexivity.
  - exists design. split; [simpl; tauto|discriminate].
Defined.

(** With every collaborator up, Vera's request is answered. *)
Lemma viewer_request_is_answered :
  exists env,
    @mention latin1 entities collaborators db
      {| input := input_of (Some "e"); state := state_of vera 0 10; body := None |}
    = Fulfilled {| input := input_of (Some "e"); state := state_of vera 0 10;
                   body := Some env |}.
Proof.
  apply (@mention_succeeds_when_collaborators_do latin1 entities collaborators db
           {| input := input_of (Some "e"); state := state_of vera 0 10; body := None |}).
  - intros _. eexists. reflexivity.
  - intros []; reflexivity.
  - intros a o. eexists. reflexivity.
  - intros a o. eexists. reflexivity.
  - intros doc. eexists. reflexivity.
  - intros g. eexists. reflexivity.
Defined.

End MoreWorkspace.

(* ===================================================================== *)
(** ** The same rows in another scan order *)
(* ===================================================================== *)

Lemma filter_perm {A} (keep : A -> bool) (l l' : list A) :
  Permutation l l' -> Permutation (filter keep l) (filter keep l').
Proof.
  induction 1 as [|x l l' _ IH|x y l|l l' l'' _ IH1 _ IH2]; simpl.
  - constructor.
  - destruct (keep x); [now constructor|assumption].
  - destruct (keep x), (keep y); try reflexivity. apply perm_swap.
  - now transitivity (filter keep l').
Qed.

(** Two sorted arrangements of the same rows are the same list when no
    two of the rows tie. *)
Lemma sorted_arrangement_unique {A} (R : A -> A -> Prop) (l l' : list A) :
  StronglySorted R l -> StronglySorted R l' -> Permutation l l' ->
  (forall x y, In x l -> In y l -> R x y -> R y x -> x = y) ->
  l = l'.
Proof.
  intros Hl. revert l'. induction Hl as [|a l Hl IH Ha]; intros l' Hl' Hperm Htie.
  - apply Permutation_nil in Hperm. now subst.
  - destruct l' as [|b l'];
      [apply Permutation_sym, Permutation_nil in Hperm; discriminate|].
    inversion Hl' as [|? ? Hl'' Hb]; subst.
    assert (a = b).
    { assert (Hain : In a (b :: l')) by (eapply Permutation_in; [exact Hperm|now left]).
      assert (Hbin : In b (a :: l))
        by (eapply Permutation_in; [symmetry; exact Hperm|now left]).
      destruct Hain as [->|Hain]; [reflexivity|].
      destruct Hbin as [->|Hbin]; [reflexivity|].
      apply Htie; [now left|now right| |].
      - eapply Forall_forall in Ha; eauto.
      - eapply Forall_forall in Hb; eauto. }
    subst b. f_equal. apply IH; trivial.
    + eapply Permutation_cons_inv, Hperm.
    + intros x y Hx Hy. apply Htie; now right.
Qed.

Lemma key_determines_row {A B} (f : A -> B) (l : list A) (x y : A) :
  NoDup (map f l) -> In x l -> In y l -> f x = f y -> x = y.
Proof.
  induction l as [|a l IH]; simpl; [tauto|].
  intros Hnd Hx Hy Hf. apply NoDup_cons_iff in Hnd as [Hfresh Hnd].
  destruct Hx as [->|Hx], Hy as [->|Hy]; trivial.
  - exfalso. apply Hfresh. rewrite Hf. now apply in_map.
  - exfalso. apply Hfresh. rewrite <- Hf. now apply in_map.
  - now apply IH.
Qed.

Section ScanOrder.
Context `{Collation} {R : Type} `{Model R}.

(** A page does not depend on the order in which the table is scanned
    when the order asked for is total and no two matching rows tie. *)
Lemma select_same_rows (table table' : list R) (o o' : FindOptions) :
  Permutation table table' ->
  (forall r, matches (replacements o) (where_ o) r
             = matches (replacements o') (where_ o') r) ->
  order o = order o' -> offset o = offset o' -> limit o = limit o' ->
  (forall x y, row_leb (order o) x y = true \/ row_leb (order o) y x = true) ->
  (forall x y z, row_leb (order o) x y = true -> row_leb (order o) y z = true ->
                 row_leb (order o) x z = true) ->
  (forall x y, In x table -> In y table ->
               matches (replacements o) (where_ o) x = true ->
               matches (replacements o) (where_ o) y = true ->
               row_leb (order o) x y = true -> row_leb (order o) y x = true ->
               x = y) ->
  select table o = select table' o'.
Proof.
  intros Hperm Hm Hord Hoff Hlim Htotal Htrans Htie.
  unfold select. rewrite <- Hord, <- Hoff, <- Hlim, <- (filter_ext _ _ Hm).
  assert (Hs : sort_rows (order o) (filter (matches (replacements o) (where_ o)) table)
               = sort_rows (order o)
                   (filter (matches (replacements o) (where_ o)) table')).
  { apply sorted_arrangement_unique with (R := fun x y => row_leb (order o) x y = true).
    - apply Sorted_StronglySorted; [exact Htrans|]. now apply sort_rows_sorted.
    - apply Sorted_StronglySorted; [exact Htrans|]. now apply sort_rows_sorted.
    - rewrite !sort_rows_perm. now apply filter_perm.
    - intros x y Hx Hy.
      apply sort_rows_In, filter_In in Hx as [Hx Hmx].
      apply sort_rows_In, filter_In in Hy as [Hy Hmy].
      now apply Htie. }
  now rewrite Hs.
Qed.

End ScanOrder.

Section SameRows.
Context `{Collation} {E : Entities} {K : @Collaborators E}.

Hypothesis collate_total :
  forall x y, collate_leb x y = true \/ collate_leb y x = true.
Hypothesis collate_trans :
  forall x y z, collate_leb x y = true -> collate_leb y z = true -> collate_leb x z = true.
Hypothesis collate_antisym :
  forall x y, collate_leb x y = true -> collate_leb y x = true -> x = y.

Variables (db db' : Database) (i : APIInput) (s : APIState).

Hypothesis same_users : Permutation (users db) (users db').
Hypothesis same_groups : Permutation (groups db) (groups db').
Hypothesis same_memberships : Permutation (groupUsers db) (groupUsers db').
Hypothesis same_status : forall tb, query_status db tb = query_status db' tb.

Hypothesis user_names_differ :
  forall u u', In u (users db) -> In u' (users db) ->
    User.teamId u = User.teamId (state_auth_user s) ->
    User.teamId u' = User.teamId (state_auth_user s) ->
    User.name u = User.name u' -> u = u'.
Hypothesis group_names_differ :
  forall g g', In g (groups db) -> In g' (groups db) ->
    Group.teamId g = User.teamId (state_auth_user s) ->
    Group.teamId g' = User.teamId (state_auth_user s) ->
    Group.name g = Group.name g' -> g = g'.

Lemma users_page_same (uc uc' : option Cond) :
  (forall x, match uc with Some c => eval_cond (VText x) c | None => true end
             = match uc' with Some c => eval_cond (VText x) c | None => true end) ->
  select (users db)
    (lookupOptions i s (with_id uc (userWhere_unscoped (state_auth_user s) (input_query i))))
  = select (users db')
      (lookupOptions i s
         (with_id uc' (userWhere_unscoped (state_auth_user s) (input_query i)))).
Proof.
  intros Hc. apply select_same_rows; trivial;
    unfold lookupOptions; cbn [replacements where_ order].
  - intro r. now rewrite !matches_with_id_user, Hc.
  - intros x y. cbn. rewrite !orb_true_r, !andb_true_r. apply collate_total.
  - intros x y z. cbn. rewrite !orb_true_r, !andb_true_r. apply collate_trans.
  - intros x y Hx Hy Hmx Hmy. cbn. rewrite !orb_true_r, !andb_true_r. intros Hxy Hyx.
    rewrite matches_with_id_user in Hmx, Hmy.
    apply andb_true_iff in Hmx as [Hmx _]. apply andb_true_iff in Hmy as [Hmy _].
    apply userWhere_unscoped_team in Hmx. apply userWhere_unscoped_team in Hmy.
    apply user_names_differ; trivial. now apply collate_antisym.
Qed.

Lemma groups_page_same (gc : option Cond) :
  select (groups db)
    (lookupOptions i s (with_id gc (groupWhere_unscoped (state_auth_user s) (input_query i))))
  = select (groups db')
      (lookupOptions i s
         (with_id gc (groupWhere_unscoped (state_auth_user s) (input_query i)))).
Proof.
  apply select_same_rows; trivial;
    unfold lookupOptions; cbn [replacements where_ order].
  - intros x y. cbn. rewrite !orb_true_r, !andb_true_r. apply collate_total.
  - intros x y z. cbn. rewrite !orb_true_r, !andb_true_r. apply collate_trans.
  - intros x y Hx Hy Hmx Hmy. cbn. rewrite !orb_true_r, !andb_true_r. intros Hxy Hyx.
    rewrite matches_with_id_group in Hmx, Hmy.
    apply andb_true_iff in Hmx as [Hmx _]. apply andb_true_iff in Hmy as [Hmy _].
    apply groupWhere_unscoped_team in Hmx. apply groupWhere_unscoped_team in Hmy.
    apply group_names_differ; trivial. now apply collate_antisym.
Qed.

Lemma fanOut_same (uc uc' gc : option Cond) :
  (forall x, match uc with Some c => eval_cond (VText x) c | None => true end
             = match uc' with Some c => eval_cond (VText x) c | None => true end) ->
  fanOut db i s
    (with_id uc (userWhere_unscoped (state_auth_user s) (input_query i)))
    (with_id gc (groupWhere_unscoped (state_auth_user s) (input_query i)))
  = fanOut db' i s
      (with_id uc' (userWhere_unscoped (state_auth_user s) (input_query i)))
      (with_id gc (groupWhere_unscoped (state_auth_user s) (input_query i))).
Proof.
  intros Hc.
  unfold fanOut, usersLookup, groupsLookup, User_findAll, Group_findAll, findAll.
  now rewrite (users_page_same _ _ Hc), (groups_page_same gc), !same_status.
Qed.

(** The members of the actor's groups are the same set however the
    membership table is scanned. *)
Lemma allowed_ids_same (G : list text) (x : text) :
  eval_cond (VText x)
    (OpIn (map VText
       (new_Set (map GroupUser.userId (select (groupUsers db) (membershipOptions G)))
        ++ [User.id (state_auth_user s)])))
  = eval_cond (VText x)
      (OpIn (map VText
         (new_Set (map GroupUser.userId (select (groupUsers db') (membershipOptions G)))
          ++ [User.id (state_auth_user s)]))).
Proof.
  apply eq_true_iff_eq. cbn [eval_cond].
  rewrite !existsb_text_In, !in_app_iff, !new_Set_In, !in_map_iff.
  assert (Hsel : forall gu,
             In gu (select (groupUsers db) (membershipOptions G)) <->
             In gu (select (groupUsers db') (membershipOptions G))).
  { intro gu. rewrite !select_In_all by reflexivity.
    split; intros [Hin Hm]; (split; [|exact Hm]).
    - eapply Permutation_in; eauto.
    - eapply Permutation_in; [symmetry|]; eauto. }
  split; (intros [(gu & Hid & Hin)|Hself]; [left; exists gu; split; trivial; now apply Hsel
                                           |now right]).
Qed.

Lemma lookups_same : lookups db i s = lookups db' i s.
Proof.
  unfold lookups, buildWhere, await.
  destruct (restrictDirectory (state_auth_user s)).
  - destruct (outcome (groupIds (state_auth_user s))) as [[|g G]|e];
      cbn [bind andb List.length Nat.ltb Nat.leb Nat.eqb]; [| |reflexivity].
    + f_equal.
      apply (fanOut_same (Some (Is (VText (User.id (state_auth_user s)))))
               (Some (Is (VText (User.id (state_auth_user s))))) (Some (OpIn []))).
      reflexivity.
    + unfold GroupUser_findAll, findAll, then_. cbn [outcome].
      rewrite <- same_status.
      destruct (outcome (query_status db GroupUsers)); cbn [bind]; [|reflexivity].
      f_equal.
      apply (fanOut_same (Some _) (Some _) (Some (OpIn (map VText (g :: G))))).
      apply allowed_ids_same.
  - cbn [bind andb]. f_equal. apply (fanOut_same None None None). reflexivity.
Qed.

End SameRows.

Section Repeatable.
Context `{Collation} {E : Entities} {K : @Collaborators E}.

(** C9, as the code has it. [ORDER BY name] has no tie-break, so which of
    two rows with one name comes first, and with it the page, is the
    database's choice.  When the collation is a total order and no two
    users, and no two groups, of the actor's team share a name, the outcome
    is repeatable: two executions with the same input (query) and state
    (pagination and actor), over stores that hold the same rows, whatever
    the order in which the tables are scanned, and with the same
    collaborators, give the same response or the same error, whatever body
    the context held before. *)
Theorem mention_repeatable_without_name_ties
    (db db' : Database) (ctx1 ctx2 : APIContext) :
  (forall x y, collate_leb x y = true \/ collate_leb y x = true) ->
  (forall x y z, collate_leb x y = true -> collate_leb y z = true ->
                 collate_leb x z = true) ->
  (forall x y, collate_leb x y = true -> collate_leb y x = true -> x = y) ->
  Permutation (users db) (users db') ->
  Permutation (groups db) (groups db') ->
  Permutation (groupUsers db) (groupUsers db') ->
  (forall tb, query_status db tb = query_status db' tb) ->
  (forall u u', In u (users db) -> In u' (users db) ->
     User.teamId u = User.teamId (state_auth_user (state ctx1)) ->
     User.teamId u' = User.teamId (state_auth_user (state ctx1)) ->
     User.name u = User.name u' -> u = u') ->
  (forall g g', In g (groups db) -> In g' (groups db) ->
     Group.teamId g = User.teamId (state_auth_user (state ctx1)) ->
     Group.teamId g' = User.teamId (state_auth_user (state ctx1)) ->
     Group.name g = Group.name g' -> g = g') ->
  input ctx1 = input ctx2 ->
  state ctx1 = state ctx2 ->
  mention db ctx1 = mention db' ctx2.
Proof.
  intros Htotal Htrans Hanti Hu Hg Hm Hst Hun Hgn Hi Hs.
  assert (Hl : lookups db (input ctx1) (state ctx1)
               = lookups db' (input ctx1) (state ctx1))
    by (apply lookups_same; assumption).
  unfold mention. now rewrite <- Hi, <- Hs, Hl.
Qed.

End Repeatable.

Lemma codepoint_leb_trans (x y z : text) :
  codepoint_leb x y = true -> codepoint_leb y z = true -> codepoint_leb x z = true.
Proof.
  revert y z. induction x as [|a x IH]; intros [|b y] [|c z]; simpl;
    try discriminate; trivial.
  rewrite !orb_true_iff, !andb_true_iff, !N.ltb_lt, !N.eqb_eq.
  intros [Hab|[-> Hxy]] [Hbc|[Hbc Hyz]]; subst; try (left; lia); auto.
  right. split; [reflexivity|]. eapply IH; eauto.
Qed.

Lemma codepoint_leb_antisym (x y : text) :
  codepoint_leb x y = true -> codepoint_leb y x = true -> x = y.
Proof.
  revert y. induction x as [|a x IH]; intros [|b y]; simpl; try discriminate; trivial.
  rewrite !orb_true_iff, !andb_true_iff, !N.ltb_lt, !N.eqb_eq.
  intros [Hab|[-> Hxy]] [Hba|[Hba Hyx]]; subst; try lia.
  f_equal. now apply IH.
Qed.

Section ScanOrderWorkspace.
Import Example.
#[local] Existing Instance latin1.
#[local] Existing Instance entities.
#[local] Existing Instance collaborators.

(** A query that is one NUL character reaches [LIKE] as a backslash and
    a 0, which is read as the digit: it finds R2D0, whose name has no NUL
    in it. *)
Lemma nul_query_is_read_as_zero :
  escape (query_template (Some [nul])) = of_ascii "%\0%" /\
  Forall (fun c => is_meta c = false) (normalize [nul]) /\
  eval_item [("query", query_template (Some [nul]))] r2d0 group_text_filter = true /\
  substringb (normalize [nul]) (normalize (Group.name r2d0)) = false.
Proof.
  repeat split; try reflexivity. repeat constructor.
Qed.

(** C9 fails as stated: Sam and Sam tie on the name, and a page of one
    holds the one the scan yields first.  The same two rows, scanned in the
    two orders, give two different responses to the same request. *)
Lemma namesakes_page_follows_scan_order :
  Permutation (users namesakes_db) (users namesakes_rescanned_db) /\
  groups namesakes_db = groups namesakes_rescanned_db /\
  groupUsers namesakes_db = groupUsers namesakes_rescanned_db /\
  lookups namesakes_db (input_of None) (state_of alice 0 1)
    = Fulfilled ([], [sam1], [], []) /\
  lookups namesakes_rescanned_db (input_of None) (state_of alice 0 1)
    = Fulfilled ([], [sam2], [], []) /\
  mention namesakes_db
    {| input := input_of None; state := state_of alice 0 1; body := None |}
  = Fulfilled
      {| input := input_of None; state := state_of alice 0 1;
         body := Some {| pagination := {| Pagination.offset := 0; Pagination.limit := 1 |};
                         data := {| data_documents := [];
                                    data_users := [(of_ascii "u-sam1", false, false)];
                                    data_groups := [];
                                    data_collections := [] |} |} |} /\
  mention namesakes_rescanned_db
    {| input := input_of None; state := state_of alice 0 1; body := None |}
  = Fulfilled
      {| input := input_of None; state := state_of alice 0 1;
         body := Some {| pagination := {| Pagination.offset := 0; Pagination.limit := 1 |};
                         data := {| data_documents := [];
                                    data_users := [(of_ascii "u-sam2", false, false)];
                                    data_groups := [];
                                    data_collections := [] |} |} |}.
Proof.
  split; [apply perm_swap|]. repeat split; reflexivity.
Qed.

Lemma workspace_names_are_unique :
  NoDup (map User.name (users db)) /\ NoDup (map Group.name (groups db)).
Proof.
  split; simpl; repeat constructor; simpl; intuition discriminate.
Qed.

(** No two users and no two groups of the workspace share a name: Vera
    gets the same response whichever way the tables are scanned, and
    whatever body her context held. *)
Lemma viewer_response_does_not_depend_on_scan_order :
  mention db {| input := input_of (Some "e"); state := state_of vera 0 10; body := None |}
  = mention rescanned_db
      {| input := input_of (Some "e"); state := state_of vera 0 10;
         body := Some {| pagination := {| Pagination.offset := 7;
                                           Pagination.limit := 1 |};
                         data := {| data_documents := [];
                                    data_users := [];
                                    data_groups := [];
                                    data_collections := [] |} |} |}.
Proof.
  apply (@mention_repeatable_without_name_ties latin1 entities collaborators).
  - apply codepoint_leb_total.
  - apply codepoint_leb_trans.
  - apply codepoint_leb_antisym.
  - apply Permutation_rev.
  - apply Permutation_rev.
  - apply Permutation_rev.
  - reflexivity.
  - intros u u' Hu Hu' _ _. now apply key_determines_row with (l := users db);
      [apply workspace_names_are_unique| |].
  - intros g g' Hg Hg' _ _. now apply key_determines_row with (l := groups db);
      [apply workspace_names_are_unique| |].
  - reflexivity.
  - reflexivity.
Defined.

End ScanOrderWorkspace.
